(** * Sudoku Killer con Z3: modelo y verificación de [main.py]

    El programa construye un conjunto de restricciones sobre las celdas de un
    tablero [n x n], lo entrega a un solucionador de dominios finitos y
    enumera los modelos uno por uno, bloqueando cada modelo encontrado.

    El solucionador (la librería Z3) es externo al repositorio: aquí es una
    interfaz, [QF_FD], con lo único que el programa usa de él: [check] es
    correcto y, sobre problemas de dominio finito, completo. *)

From Stdlib Require Import ZArith List Lia.
From stdpp Require Import base numbers option list gmap.
From stdpp Require Import strings pretty.

Local Open Scope Z_scope.

(** ** Expresiones de Z3 que el programa construye *)

(** Una constante entera [Int("celda[i,j]")] se identifica por los dos
    números que aparecen en su nombre: el formato [f"celda[{i},{j}]"] es
    inyectivo en el par [(i, j)]. *)
Abbreviation nombre := (Z * Z)%type (only parsing).
Abbreviation var := (Z * Z)%type (only parsing).

Definition Int (nombre_variable : nombre) : var := nombre_variable.

Inductive expr : Type :=
| Ge (v : var) (k : Z)                  (* v >= k *)
| Le (v : var) (k : Z)                  (* v <= k *)
| Distinct (vs : list var)              (* Distinct(vs) *)
| SumEq (vs : list var) (t : Z)         (* Sum(vs) == t *)
| OrNeq (lits : list (var * Z)).        (* Or([v != k, ...]) *)

Abbreviation modelo := (var → Z) (only parsing).

Definition suma (l : list Z) : Z := foldr Z.add 0 l.

Definition interp (m : modelo) (e : expr) : Prop :=
  match e with
  | Ge v k => k ≤ m v
  | Le v k => m v ≤ k
  | Distinct vs => NoDup (m <$> vs)
  | SumEq vs t => suma (m <$> vs) = t
  | OrNeq lits => Exists (λ l, m l.1 ≠ l.2) lits
  end.

#[global] Instance interp_dec m e : Decision (interp m e).
Proof. destruct e; simpl; apply _. Defined.

Definition satisface (m : modelo) (A : list expr) : Prop := Forall (interp m) A.

Definition vars_de (e : expr) : list var :=
  match e with
  | Ge v _ | Le v _ => [v]
  | Distinct vs | SumEq vs _ => vs
  | OrNeq lits => lits.*1
  end.

(** Un problema es de dominio finito cuando toda constante que aparece en
    él tiene una cota inferior y una superior entre sus restricciones. *)
Definition dominio_finito (A : list expr) : Prop :=
  ∀ e v, e ∈ A → v ∈ vars_de e → (∃ k, Ge v k ∈ A) ∧ (∃ k, Le v k ∈ A).

(** ** El solucionador, [SolverFor("QF_FD")]

    [check A = Some m]: [check()] responde [sat] y [model()] es [m];
    [check A = None]: cualquier otra respuesta.  El resultado puede depender
    de toda la lista de aserciones, que registra también el orden en que se
    bloquearon los modelos anteriores.

    Lo que se supone de Z3: un modelo da valor a todas las constantes del
    problema y satisface todas sus aserciones ([check_sat]); y sobre un
    problema de dominio finito solo deja de responder [sat] cuando no hay
    modelo ([check_unsat]).  La semántica de [Distinct] y [Sum] es la lógica;
    que z3py rechace construir un [Distinct] sin argumentos está en
    [z3_Distinct], más abajo. *)
Record QF_FD : Type := {
  check : list expr → option modelo;
  check_sat : ∀ A m, check A = Some m → satisface m A;
  check_unsat : ∀ A, dominio_finito A → check A = None → ∀ m, ¬ satisface m A
}.

(** ** Excepciones de Python que el programa puede levantar *)

Inductive excepcion : Type :=
| KeyError (clave : Z * Z)   (* variables_tablero[clave] sin esa clave *)
| ValueError                 (* range() con paso cero *)
| TypeError                  (* int() de un complejo *)
| OverflowError              (* entero demasiado grande para ser flotante *)
| Z3Exception.               (* Distinct() sin argumentos *)

Abbreviation res A := (excepcion + A)%type (only parsing).

Definition ligar {A B} (x : res A) (f : A → res B) : res B :=
  match x with
  | inl e => inl e
  | inr a => f a
  end.

Notation "x <~ c1 ;; c2" := (ligar c1 (λ x, c2))
  (at level 100, c1 at next level, right associativity).

(** [for x in l: cuerpo] sobre un estado [s]. *)
Fixpoint para {S A} (l : list A) (cuerpo : S → A → res S) (s : S) : res S :=
  match l with
  | [] => inr s
  | x :: l' => s' <~ cuerpo s x ;; para l' cuerpo s'
  end.

(** [[f(x) for x in l]], evaluada de izquierda a derecha. *)
Fixpoint comprension {A B} (f : A → res B) (l : list A) : res (list B) :=
  match l with
  | [] => inr []
  | x :: l' => y <~ f x ;; ys <~ comprension f l' ;; inr (y :: ys)
  end.

(** [range(n)] *)
Definition range (n : Z) : list Z := seqZ 0 n.

(** [range(0, n, paso)] con [paso >= 0] *)
Definition range_paso (n paso : Z) : res (list Z) :=
  if decide (paso = 0) then inl ValueError
  else inr ((λ i, i * paso) <$> seqZ 0 ((n + paso - 1) `div` paso)).

(** El menor entero positivo que ya no cabe en un flotante: al convertirlo
    se redondea a [2^1024]. *)
Definition limite_flotante : Z := 2 ^ 1024 - 2 ^ 970.

(** [int(n ** 0.5)].  La potencia convierte antes [n] a flotante.  Para
    [n < 0]: si [n] no cabe en un flotante la conversión levanta
    [OverflowError]; si cabe, la potencia es un complejo e [int] lo rechaza
    con [TypeError].  Para [0 <= n] es la raíz entera: la aritmética flotante
    la da exacta por debajo de [2^52], y ninguna dimensión mayor llega a esta
    línea, porque antes hay que crear sus [n * n] variables. *)
Definition raiz_entera (n : Z) : res Z :=
  if decide (n < 0) then
    if decide (n ≤ - limite_flotante) then inl OverflowError else inl TypeError
  else inr (Z.sqrt n).

(** [d[clave]] *)
Definition elemento (d : gmap (Z * Z) var) (clave : Z * Z) : res var :=
  match d !! clave with
  | Some v => inr v
  | None => inl (KeyError clave)
  end.

(** ** El programa *)

Abbreviation tablero := (list (list Z)) (only parsing).
Abbreviation jaula := (Z * list (Z * Z))%type (only parsing).

Definition nombre_celda (fila columna : Z) : nombre := (fila + 1, columna + 1).

Definition crear_variable_entera (solver : list expr) (nombre_variable : nombre)
    (valor_minimo valor_maximo : Z) : list expr * var :=
  let variable := Int nombre_variable in
  (solver ++ [Ge variable valor_minimo; Le variable valor_maximo], variable).

(** [Distinct(vs)] de z3py, que rechaza una lista de argumentos vacía. *)
Definition z3_Distinct (vs : list var) : res expr :=
  match vs with
  | [] => inl Z3Exception
  | _ :: _ => inr (Distinct vs)
  end.

(** Con una lista vacía [Sum] da el entero 0 y la primera aserción se añade
    sin más; es [Distinct] quien levanta la excepción. *)
Definition agregar_restriccion_jaula (solver : list expr) (celdas_grupo : list var)
    (suma_objetivo : Z) : res (list expr) :=
  let solver := solver ++ [SumEq celdas_grupo suma_objetivo] in
  d <~ z3_Distinct celdas_grupo ;;
  inr (solver ++ [d]).

(** Líneas 70-77: una variable por celda, con dominio [1..n]. *)
Definition crear_celda (n fila : Z) (st : gmap (Z * Z) var * list expr) (columna : Z)
    : gmap (Z * Z) var * list expr :=
  let '(solver, v) := crear_variable_entera st.2 (nombre_celda fila columna) 1 n in
  (<[(fila, columna) := v]> st.1, solver).

Definition crear_variables (n : Z) : gmap (Z * Z) var * list expr :=
  foldl (λ st fila, foldl (crear_celda n fila) st (range n)) (∅, []) (range n).

(** Líneas 80-82: filas y columnas. *)
Definition restringir_fila (n : Z) (variables_tablero : gmap (Z * Z) var)
    (solver : list expr) (fila : Z) : res (list expr) :=
  fs <~ comprension (λ columna, elemento variables_tablero (fila, columna)) (range n) ;;
  d <~ z3_Distinct fs ;;
  let solver := solver ++ [d] in
  cs <~ comprension (λ columna, elemento variables_tablero (columna, fila)) (range n) ;;
  d <~ z3_Distinct cs ;;
  inr (solver ++ [d]).

(** Líneas 86-92: subcuadrículas. *)
Definition claves_bloque (subcuadricula fila_inicio columna_inicio : Z) : list (Z * Z) :=
  r ← range subcuadricula; c ← range subcuadricula; [(fila_inicio + r, columna_inicio + c)].

Definition restringir_bloque (subcuadricula : Z) (variables_tablero : gmap (Z * Z) var)
    (fila_inicio : Z) (solver : list expr) (columna_inicio : Z) : res (list expr) :=
  b <~ comprension (elemento variables_tablero)
         (claves_bloque subcuadricula fila_inicio columna_inicio) ;;
  d <~ z3_Distinct b ;;
  inr (solver ++ [d]).

(** Líneas 95-97: jaulas. *)
Definition restringir_jaula (variables_tablero : gmap (Z * Z) var)
    (solver : list expr) (j : jaula) : res (list expr) :=
  let '(suma_objetivo, celdas_grupo) := j in
  celdas <~ comprension (λ '(fila, columna), elemento variables_tablero (fila - 1, columna - 1))
              celdas_grupo ;;
  agregar_restriccion_jaula solver celdas suma_objetivo.

(** Líneas 64-97: todo lo que ocurre antes de la primera llamada a [check]. *)
Definition construir (restricciones : list jaula) (dimension_tablero : Z)
    : res (gmap (Z * Z) var * list expr) :=
  let '(variables_tablero, solucionador) := crear_variables dimension_tablero in
  solucionador <~ para (range dimension_tablero)
                    (restringir_fila dimension_tablero variables_tablero) solucionador ;;
  subcuadricula <~ raiz_entera dimension_tablero ;;
  solucionador <~ (inicios <~ range_paso dimension_tablero subcuadricula ;;
                   para inicios (λ s fila_inicio,
                     inicios' <~ range_paso dimension_tablero subcuadricula ;;
                     para inicios' (restringir_bloque subcuadricula variables_tablero fila_inicio) s)
                     solucionador) ;;
  solucionador <~ para restricciones (restringir_jaula variables_tablero) solucionador ;;
  inr (variables_tablero, solucionador).

(** Líneas 108-109: el tablero que se imprime para un modelo. *)
Definition imprimir (n : Z) (variables_tablero : gmap (Z * Z) var) (m : modelo) : res tablero :=
  comprension (λ fila,
    comprension (λ columna, v <~ elemento variables_tablero (fila, columna) ;; inr (m v))
      (range n)) (range n).

(** Líneas 113-117: la cláusula que excluye el modelo encontrado. *)
Definition bloqueo (n : Z) (variables_tablero : gmap (Z * Z) var) (m : modelo) : res expr :=
  lits <~ comprension (λ '(fila, columna),
            v <~ elemento variables_tablero (fila, columna) ;;
            w <~ elemento variables_tablero (fila, columna) ;;
            inr (v, m w))
          (fila ← range n; columna ← range n; [(fila, columna)]) ;;
  inr (OrNeq lits).

Record salida : Type := {
  soluciones_encontradas : Z;
  impresas : list tablero;
  solucionador_final : list expr
}.

(** Líneas 100-117: el bucle [while solucionador.check() == sat].  [None]
    es haber agotado el combustible sin que el bucle terminara. *)
Fixpoint bucle (Z3 : QF_FD) (n : Z) (variables_tablero : gmap (Z * Z) var) (fuel : nat)
    (solucionador : list expr) (soluciones_encontradas : Z) (impresas : list tablero)
    : option (res salida) :=
  match fuel with
  | O => None
  | S fuel' =>
    match check Z3 solucionador with
    | None => Some (inr (Build_salida soluciones_encontradas impresas solucionador))
    | Some modelo =>
      let soluciones_encontradas := soluciones_encontradas + 1 in
      match imprimir n variables_tablero modelo with
      | inl e => Some (inl e)
      | inr t =>
        match bloqueo n variables_tablero modelo with
        | inl e => Some (inl e)
        | inr b =>
          bucle Z3 n variables_tablero fuel' (solucionador ++ [b])
            soluciones_encontradas (impresas ++ [t])
        end
      end
    end
  end.

Definition resolver_sudoku_killer (Z3 : QF_FD) (fuel : nat)
    (restricciones : list jaula) (dimension_tablero : Z) : option (res salida) :=
  match construir restricciones dimension_tablero with
  | inl e => Some (inl e)
  | inr (variables_tablero, solucionador) =>
    bucle Z3 dimension_tablero variables_tablero fuel solucionador 0 []
  end.

(** Líneas 126-156. *)
Definition restricciones_sudoku : list jaula := [
  (8, [(1, 1); (2, 1)]);
  (24, [(1, 2); (1, 3); (2, 3)]);
  (9, [(1, 4); (2, 4)]);
  (14, [(1, 5); (1, 6); (1, 7)]);
  (15, [(1, 8); (1, 9); (2, 8); (2, 9)]);
  (6, [(2, 2); (3, 2)]);
  (15, [(2, 5); (2, 6); (2, 7)]);
  (11, [(3, 1); (4, 1); (4, 2)]);
  (16, [(3, 3); (3, 4); (3, 5)]);
  (19, [(3, 6); (3, 7); (3, 8); (4, 6)]);
  (17, [(3, 9); (4, 9)]);
  (23, [(4, 3); (5, 2); (5, 3); (6, 2); (6, 3)]);
  (8, [(4, 4); (5, 4)]);
  (8, [(4, 5); (5, 5)]);
  (19, [(4, 7); (4, 8); (5, 8)]);
  (15, [(5, 1); (6, 1)]);
  (7, [(5, 6); (5, 7)]);
  (7, [(5, 9); (6, 9)]);
  (17, [(6, 4); (6, 5)]);
  (8, [(6, 6); (6, 7)]);
  (14, [(6, 8); (7, 8); (7, 9)]);
  (16, [(7, 1); (8, 1); (8, 2)]);
  (17, [(7, 2); (7, 3); (7, 4)]);
  (10, [(7, 5); (7, 6)]);
  (21, [(7, 7); (8, 7); (8, 8); (8, 9)]);
  (8, [(8, 3); (8, 4); (8, 5)]);
  (22, [(8, 6); (9, 4); (9, 5); (9, 6)]);
  (17, [(9, 1); (9, 2); (9, 3)]);
  (14, [(9, 7); (9, 8); (9, 9)])
].

Definition dimension : Z := 9.

(** ** Lo que el programa escribe

    El mismo programa, siguiendo ahora lo que [print] escribe en la salida
    estándar: una cadena por línea.  Lo escrito antes de una excepción queda
    escrito. *)

(** [str(x)] de un entero *)
Definition str (x : Z) : string := pretty x.

(** [sep.join(l)] *)
Fixpoint join (sep : string) (l : list string) : string :=
  match l with
  | [] => ""
  | x :: l' =>
    match l' with
    | [] => x
    | _ :: _ => x +:+ sep +:+ join sep l'
    end
  end.

(** Líneas 108-109: una línea por fila; cada fila consulta el diccionario
    antes de escribirse. *)
Fixpoint imprimir_filas (n : Z) (variables_tablero : gmap (Z * Z) var) (m : modelo)
    (filas : list Z) (stdout : list string) : option excepcion * list string :=
  match filas with
  | [] => (None, stdout)
  | fila :: filas' =>
    match comprension (λ columna,
            v <~ elemento variables_tablero (fila, columna) ;; inr (str (m v))) (range n) with
    | inl e => (Some e, stdout)
    | inr celdas => imprimir_filas n variables_tablero m filas' (stdout ++ [join " " celdas])
    end
  end.

(** Líneas 102-117, con la salida estándar.  Devuelve la excepción (si la
    hay), el contador y lo escrito. *)
Fixpoint bucle_stdout (Z3 : QF_FD) (n : Z) (variables_tablero : gmap (Z * Z) var) (fuel : nat)
    (solucionador : list expr) (soluciones_encontradas : Z) (stdout : list string)
    : option (option excepcion * Z * list string) :=
  match fuel with
  | O => None
  | S fuel' =>
    match check Z3 solucionador with
    | None => Some (None, soluciones_encontradas, stdout)
    | Some modelo =>
      let soluciones_encontradas := soluciones_encontradas + 1 in
      let stdout := stdout ++ ["Solución " +:+ str soluciones_encontradas +:+ ":"] in
      match imprimir_filas n variables_tablero modelo (range n) stdout with
      | (Some e, stdout) => Some (Some e, soluciones_encontradas, stdout)
      | (None, stdout) =>
        let stdout := stdout ++ [""] in
        match bloqueo n variables_tablero modelo with
        | inl e => Some (Some e, soluciones_encontradas, stdout)
        | inr b =>
          bucle_stdout Z3 n variables_tablero fuel' (solucionador ++ [b])
            soluciones_encontradas stdout
        end
      end
    end
  end.

(** Líneas 120-123. *)
Definition mensaje_final (soluciones_encontradas : Z) : string :=
  if decide (soluciones_encontradas = 0) then "No se encontraron soluciones."
  else "Total de soluciones encontradas: " +:+ str soluciones_encontradas.

(** El programa entero: la excepción con la que termina, si termina con
    una, y todo lo que escribió. *)
Definition resolver_sudoku_killer_stdout (Z3 : QF_FD) (fuel : nat)
    (restricciones : list jaula) (dimension_tablero : Z)
    : option (option excepcion * list string) :=
  match construir restricciones dimension_tablero with
  | inl e => Some (Some e, [])
  | inr (variables_tablero, solucionador) =>
    match bucle_stdout Z3 dimension_tablero variables_tablero fuel solucionador 0 [] with
    | None => None
    | Some (Some e, _, stdout) => Some (Some e, stdout)
    | Some (None, soluciones_encontradas, stdout) =>
      Some (None, stdout ++ [mensaje_final soluciones_encontradas])
    end
  end.

(** * Vocabulario de la especificación *)

(** ** El tablero y sus aserciones *)

Definition en_tablero (n : Z) (k : Z * Z) : Prop :=
  (0 ≤ k.1 < n) ∧ (0 ≤ k.2 < n).

#[global] Instance en_tablero_dec n k : Decision (en_tablero n k).
Proof. unfold en_tablero. apply _. Defined.

Definition claves (n : Z) : list (Z * Z) :=
  fila ← range n; columna ← range n; [(fila, columna)].

Definition cotas (n : Z) : list expr :=
  k ← claves n; [Ge (nombre_celda k.1 k.2) 1; Le (nombre_celda k.1 k.2) n].

Definition fila_vars (n fila : Z) : list var := (λ columna, nombre_celda fila columna) <$> range n.

Definition columna_vars (n fila : Z) : list var := (λ columna, nombre_celda columna fila) <$> range n.

Definition bloque_vars (s fila_inicio columna_inicio : Z) : list var :=
  (λ k, nombre_celda k.1 k.2) <$> claves_bloque s fila_inicio columna_inicio.

Definition jaula_vars (celdas_grupo : list (Z * Z)) : list var :=
  (λ k, nombre_celda (k.1 - 1) (k.2 - 1)) <$> celdas_grupo.

Definition inicios (n s : Z) : list Z := (λ i, i * s) <$> seqZ 0 ((n + s - 1) `div` s).

Definition filas_columnas (n : Z) : list expr :=
  fila ← range n; [Distinct (fila_vars n fila); Distinct (columna_vars n fila)].

Definition bloques (n s : Z) : list expr :=
  fi ← inicios n s; ci ← inicios n s; [Distinct (bloque_vars s fi ci)].

Definition jaulas (restricciones : list jaula) : list expr :=
  j ← restricciones; [SumEq (jaula_vars j.2) j.1; Distinct (jaula_vars j.2)].

(** Las aserciones que no dependen de las jaulas. *)
Definition base (n : Z) : list expr :=
  (cotas n ++ filas_columnas n) ++ bloques n (Z.sqrt n).

Definition jaula_en_tablero (n : Z) (j : jaula) : Prop :=
  Forall (λ k, en_tablero n (k.1 - 1, k.2 - 1)) j.2.

Definition bloques_en_tablero (n s : Z) : Prop :=
  Forall (λ fi, Forall (λ ci, Forall (en_tablero n) (claves_bloque s fi ci)) (inicios n s))
    (inicios n s).

#[global] Instance jaula_en_tablero_dec n j : Decision (jaula_en_tablero n j).
Proof. unfold jaula_en_tablero. apply _. Defined.

(** Una jaula que el bucle de las líneas 95-97 acepta: sus celdas están en
    el tablero y tiene al menos una. *)
Definition jaula_buena (n : Z) (j : jaula) : Prop := jaula_en_tablero n j ∧ j.2 ≠ [].

#[global] Instance jaula_buena_dec n j : Decision (jaula_buena n j).
Proof. unfold jaula_buena. apply _. Defined.

#[global] Instance bloques_en_tablero_dec n s : Decision (bloques_en_tablero n s).
Proof. unfold bloques_en_tablero. apply _. Defined.

Definition var_de_tablero (n : Z) (v : var) : Prop :=
  ∃ k, en_tablero n k ∧ v = nombre_celda k.1 k.2.

(** ** Resultado de cada paso de la construcción *)

Definition determina {A} (n : Z) (r : res A) (P : Prop) (a : A) : Prop :=
  (P → r = inr a) ∧ (¬ P → ∃ k, ¬ en_tablero n k ∧ r = inl (KeyError k)).

Definition expr_bloque (T : gmap (Z * Z) var) (s fi ci : Z) : res (list expr) :=
  b <~ comprension (elemento T) (claves_bloque s fi ci) ;; d <~ z3_Distinct b ;; inr [d].

(** ** Tableros impresos *)

Definition tablero_de (n : Z) (m : modelo) : tablero :=
  (λ fila, (λ columna, m (nombre_celda fila columna)) <$> range n) <$> range n.

Definition clausula (n : Z) (m : modelo) : expr :=
  OrNeq ((λ k, (nombre_celda k.1 k.2, m (nombre_celda k.1 k.2))) <$> claves n).

(** [t[fila][columna]] *)
Definition valor (t : tablero) (fila columna : Z) : Z :=
  (t !!! Z.to_nat fila) !!! Z.to_nat columna.

Definition clausula_de (n : Z) (t : tablero) : expr :=
  OrNeq ((λ k, (nombre_celda k.1 k.2, valor t k.1 k.2)) <$> claves n).

Definition fila_de (t : tablero) (fila : Z) : list Z := t !!! Z.to_nat fila.

Definition columna_de (n : Z) (t : tablero) (columna : Z) : list Z :=
  (λ fila, valor t fila columna) <$> range n.

Definition bloque_de (s : Z) (t : tablero) (fila_inicio columna_inicio : Z) : list Z :=
  (λ k, valor t k.1 k.2) <$> claves_bloque s fila_inicio columna_inicio.

(** Los valores de las celdas de una jaula, dadas con base 1 como en la entrada. *)
Definition jaula_de (t : tablero) (celdas_grupo : list (Z * Z)) : list Z :=
  (λ k, valor t (k.1 - 1) (k.2 - 1)) <$> celdas_grupo.

Definition veces (v : Z) (l : list Z) : nat := length (filter (λ x, x = v) l).

(** [hallados Z3 n A0 ms]: [ms] son, en orden, los modelos que [check] va
    devolviendo cuando se parte de [A0] y se bloquea cada modelo hallado. *)
Definition hallados (Z3 : QF_FD) (n : Z) (A0 : list expr) (ms : list modelo) : Prop :=
  ∀ i m, ms !! i = Some m → check Z3 (A0 ++ (clausula n <$> take i ms)) = Some m.

Definition salida_de (n : Z) (A0 : list expr) (ms : list modelo) : salida :=
  {| soluciones_encontradas := Z.of_nat (length ms);
     impresas := tablero_de n <$> ms;
     solucionador_final := A0 ++ (clausula n <$> ms) |}.

(** Número de soluciones que el programa alcanza a contar. *)
Definition cuenta (r : res salida) : Z :=
  match r with
  | inl _ => 0
  | inr out => soluciones_encontradas out
  end.

Definition salida_vacia : salida := Build_salida 0 [] [].

Definition salida_de_corrida (r : option (res salida)) : salida :=
  match r with
  | Some (inr out) => out
  | _ => salida_vacia
  end.

(** ** Todos los tableros posibles *)

Fixpoint listas {A} (k : nat) (dom : list A) : list (list A) :=
  match k with
  | O => [[]]
  | S k' => x ← dom; l ← listas k' dom; [x :: l]
  end.

Definition todos_tableros (n : Z) : list tablero :=
  listas (Z.to_nat n) (listas (Z.to_nat n) (seqZ 1 n)).

(** Combustible que basta para cualquier instancia de dimensión [n]. *)
Definition combustible (n : Z) : nat := S (length (todos_tableros n)).

(** ** Búsqueda exhaustiva *)

Definition cota_inferior (A : list expr) (v : var) : option Z :=
  head (omap (λ e, match e with
                   | Ge w k => if decide (w = v) then Some k else None
                   | _ => None
                   end) A).

Definition cota_superior (A : list expr) (v : var) : option Z :=
  head (omap (λ e, match e with
                   | Le w k => if decide (w = v) then Some k else None
                   | _ => None
                   end) A).

Definition candidatos (A : list expr) (v : var) : list Z :=
  match cota_inferior A v, cota_superior A v with
  | Some lo, Some hi => seqZ lo (hi - lo + 1)
  | _, _ => []
  end.

Definition variables (A : list expr) : list var := remove_dups (A ≫= vars_de).

Fixpoint asignaciones (vs : list var) (dom : var → list Z) : list (list (var * Z)) :=
  match vs with
  | [] => [[]]
  | v :: vs' => x ← dom v; a ← asignaciones vs' dom; [(v, x) :: a]
  end.

Fixpoint buscar (a : list (var * Z)) (v : var) : Z :=
  match a with
  | [] => 0
  | (w, x) :: a' => if decide (w = v) then x else buscar a' v
  end.

Definition check_exhaustivo (A : list expr) : option modelo :=
  buscar <$> head (filter (λ a, satisface (buscar a) A)
                     (asignaciones (variables A) (candidatos A))).

(** ** Búsqueda con poda *)

(** [todos f l]: como [forallb], pero sin evaluar [f] más allá del primer
    fallo. *)
Fixpoint todos {A} (f : A → bool) (l : list A) : bool :=
  match l with
  | [] => true
  | x :: l' => if f x then todos f l' else false
  end.

Fixpoint sin_repetidos (l : list Z) : bool :=
  match l with
  | [] => true
  | x :: l' => if todos (λ y, negb (x =? y)) l' then sin_repetidos l' else false
  end.

(** Suma de los valores ya asignados y número de constantes sin asignar. *)
Fixpoint resumen (p : gmap var Z) (vs : list var) : Z * Z :=
  match vs with
  | [] => (0, 0)
  | v :: vs' =>
    let '(s, r) := resumen p vs' in
    match p !! v with
    | Some x => (x + s, r)
    | None => (s, r + 1)
    end
  end.

Definition consistente (lo hi : Z) (p : gmap var Z) (e : expr) : bool :=
  match e with
  | Distinct vs => sin_repetidos (omap (λ v, p !! v) vs)
  | SumEq vs t =>
    let '(s, r) := resumen p vs in (s + lo * r <=? t) && (t <=? s + hi * r)
  | _ => true
  end.

Fixpoint dfs (lo hi : Z) (plan : list (var * list expr)) (p : gmap var Z) : list (gmap var Z) :=
  match plan with
  | [] => [p]
  | (v, es) :: plan' =>
    x ← seqZ lo (hi - lo + 1);
    if todos (consistente lo hi (<[v:=x]> p)) es then dfs lo hi plan' (<[v:=x]> p) else []
  end.

Definition relevante (v : var) (e : expr) : bool :=
  match e with
  | Distinct vs | SumEq vs _ => bool_decide (v ∈ vs)
  | _ => false
  end.

Definition planificar (A : list expr) (orden : list var) : list (var * list expr) :=
  (λ v, (v, filter (λ e, relevante v e = true) A)) <$> orden.

Definition modelo_parcial (p : gmap var Z) : modelo := λ v, default 0 (p !! v).

Definition tablero_parcial (n : Z) (p : gmap var Z) : tablero :=
  tablero_de n (modelo_parcial p).

(** Modelos de una instancia, como tableros. *)
Definition tableros_modelo (restricciones : list jaula) (n : Z) (orden : list (Z * Z)) : list tablero :=
  tablero_parcial n <$>
    dfs 1 n (planificar (base n ++ jaulas restricciones) ((λ k, nombre_celda k.1 k.2) <$> orden)) ∅.

Definition minimo (l : list Z) : Z :=
  match l with
  | [] => 0
  | x :: l' => foldr Z.min x l'
  end.

Definition maximo (l : list Z) : Z :=
  match l with
  | [] => 0
  | x :: l' => foldr Z.max x l'
  end.

Definition cotas_de (A : list expr) (vs : list var) : option (list (Z * Z)) :=
  mapM (λ v, lo ← cota_inferior A v; hi ← cota_superior A v; Some (lo, hi)) vs.

Definition check_poda (A : list expr) : option modelo :=
  cs ← cotas_de A (variables A);
  modelo_parcial <$>
    head (filter (λ q, satisface (modelo_parcial q) A)
            (dfs (minimo cs.*1) (maximo cs.*2) (planificar A (variables A)) ∅)).

(** ** La instancia de 9x9: un orden de asignación y su solución *)

(** Un orden de asignación para el tablero de 9x9 del programa. *)
Definition orden_sudoku : list (Z * Z) := [
  (2, 8); (3, 8); (5, 3); (5, 4); (5, 0); (4, 0); (0, 1); (0, 2); (1, 2);
  (1, 1); (2, 1); (0, 0); (1, 0); (2, 0); (2, 2); (3, 1); (3, 0); (5, 1);
  (4, 1); (5, 2); (3, 2); (4, 2); (7, 2); (6, 2); (8, 2); (8, 0); (8, 1);
  (6, 1); (6, 3); (7, 1); (6, 0); (7, 0); (2, 3); (2, 4); (7, 3); (7, 4);
  (3, 3); (4, 3); (1, 3); (0, 3); (8, 3); (2, 5); (2, 6); (2, 7); (3, 5);
  (3, 4); (4, 4); (4, 5); (4, 6); (5, 5); (5, 6); (4, 8); (5, 8); (4, 7);
  (5, 7); (0, 5); (1, 5); (6, 4); (6, 5); (6, 6); (3, 6); (3, 7); (1, 7);
  (6, 7); (6, 8); (8, 4); (1, 4); (1, 6); (0, 4); (0, 6); (0, 8); (0, 7);
  (1, 8); (7, 6); (7, 7); (7, 8); (7, 5); (8, 5); (8, 6); (8, 7); (8, 8)
].

Definition solucion_sudoku : tablero := [
  [2; 9; 8; 1; 4; 3; 7; 6; 5];
  [6; 5; 7; 8; 2; 9; 4; 1; 3];
  [4; 1; 3; 7; 6; 5; 8; 2; 9];
  [1; 6; 2; 5; 7; 4; 9; 3; 8];
  [8; 4; 9; 3; 1; 2; 5; 7; 6];
  [7; 3; 5; 9; 8; 6; 2; 4; 1];
  [5; 7; 4; 6; 9; 1; 3; 8; 2];
  [9; 2; 1; 4; 3; 8; 6; 5; 7];
  [3; 8; 6; 2; 5; 7; 1; 9; 4]
].

Definition modelo_solucion : modelo := λ v, valor solucion_sudoku (v.1 - 1) (v.2 - 1).

(** ** Soluciones, dichas sobre el tablero *)

(** El modelo que da a cada celda el valor que tiene en el tablero [t]. *)
Definition modelo_de_tablero (t : tablero) : modelo := λ v, valor t (v.1 - 1) (v.2 - 1).

(** [t] es un tablero [n x n] con valores de [1..n] que cumple las reglas:
    sin repetidos en filas, columnas y subcuadrículas, y en cada jaula sin
    repetidos y con la suma pedida. *)
Definition es_solucion (n : Z) (restricciones : list jaula) (t : tablero) : Prop :=
  length t = Z.to_nat n
  ∧ Forall (λ fila, length fila = Z.to_nat n ∧ Forall (λ x, 1 ≤ x ≤ n) fila) t
  ∧ (∀ f, 0 ≤ f < n → NoDup (fila_de t f))
  ∧ (∀ c, 0 ≤ c < n → NoDup (columna_de n t c))
  ∧ (∀ fi ci, fi ∈ inicios n (Z.sqrt n) → ci ∈ inicios n (Z.sqrt n) →
       NoDup (bloque_de (Z.sqrt n) t fi ci))
  ∧ (∀ j : jaula, j ∈ restricciones → NoDup (jaula_de t j.2) ∧ suma (jaula_de t j.2) = j.1).

(** ** Lo que se escribe, dicho sobre los tableros impresos *)

(** Las líneas de una solución: el rótulo con su número, una línea por
    fila con los valores separados por un espacio, y una línea vacía. *)
Definition lineas_solucion (k : Z) (t : tablero) : list string :=
  ["Solución " +:+ str k +:+ ":"] ++ ((λ fila, join " " (str <$> fila)) <$> t) ++ [""].

(** Las líneas de los tableros [ts], numerados a partir de [c + 1]. *)
Fixpoint escrito (c : Z) (ts : list tablero) : list string :=
  match ts with
  | [] => []
  | t :: ts' => lineas_solucion (c + 1) t ++ escrito (c + 1) ts'
  end.

(** Lo que la corrida [r] deja escrito. *)
Definition texto_de (r : res salida) : option excepcion * list string :=
  match r with
  | inl e => (Some e, [])
  | inr out =>
    (None, escrito 0 (impresas out) ++ [mensaje_final (soluciones_encontradas out)])
  end.

(** * Propiedades de la construcción *)

Section monada.
Context {A B S : Type}.

Lemma comprension_inr (f : A → res B) l ys :
  comprension f l = inr ys ↔ Forall2 (λ x y, f x = inr y) l ys.
Proof.
  revert ys. induction l as [|x l IH]; intros ys; simpl.
  - split; [intros [= <-]; constructor | by inversion 1].
  - destruct (f x) as [e|y] eqn:Hx; simpl.
    { split; [done | inversion 1; congruence]. }
    destruct (comprension f l) as [e|ys'] eqn:Hl; simpl.
    + split; [done|]. inversion 1 as [|???? Hy Hr]; subst.
      apply IH in Hr. done.
    + split.
      * intros [= <-]. constructor; [done | by apply IH].
      * inversion 1 as [|???? Hy Hr]; subst. apply IH in Hr. congruence.
Qed.

Lemma comprension_inl (f : A → res B) l e :
  comprension f l = inl e → ∃ x, x ∈ l ∧ f x = inl e.
Proof.
  induction l as [|x l IH]; simpl; [done|].
  destruct (f x) as [e'|y] eqn:Hx; simpl.
  - intros [= <-]. exists x. split; [left | done].
  - destruct (comprension f l) as [e'|ys'] eqn:Hl; simpl; [|done].
    intros [= <-]. destruct IH as (x' & ? & ?); [done|].
    exists x'. split; [by right | done].
Qed.

Lemma comprension_falla (f : A → res B) l x e :
  x ∈ l → f x = inl e → ∃ e', comprension f l = inl e'.
Proof.
  induction 1 as [x l|x y l Hin IH]; intros Hx; simpl.
  - rewrite Hx. eauto.
  - destruct (f y); simpl; [eauto|].
    destruct (IH Hx) as [e' ->]. simpl. eauto.
Qed.

Lemma para_inl (cuerpo : S → A → res S) l s e :
  para l cuerpo s = inl e → ∃ s' x, x ∈ l ∧ cuerpo s' x = inl e.
Proof.
  revert s. induction l as [|x l IH]; intros s; simpl; [done|].
  destruct (cuerpo s x) as [e'|s'] eqn:Hx; simpl.
  - intros [= <-]. exists s, x. split; [left | done].
  - intros H. destruct (IH _ H) as (s'' & x' & ? & ?).
    exists s'', x'. split; [by right | done].
Qed.
Lemma para_app (cuerpo : S → A → res S) (l1 l2 : list A) (s : S) :
  para (l1 ++ l2) cuerpo s = (s' <~ para l1 cuerpo s ;; para l2 cuerpo s').
Proof.
  revert s. induction l1 as [|x l1 IH]; intros s; simpl; [done|].
  destruct (cuerpo s x); simpl; [done | apply IH].
Qed.
End monada.

(** Un bucle cuyo cuerpo solo añade aserciones: el resultado es el estado
    inicial seguido de lo que añade cada vuelta. *)
Lemma para_agrega {A} (F : A → res (list expr)) (cuerpo : list expr → A → res (list expr)) l s :
  (∀ s x, cuerpo s x = (ys <~ F x ;; inr (s ++ ys))) →
  para l cuerpo s = (yss <~ comprension F l ;; inr (s ++ concat yss)).
Proof.
  intros Hc. revert s. induction l as [|x l IH]; intros s; simpl.
  - by rewrite app_nil_r.
  - rewrite Hc. destruct (F x) as [e|ys]; simpl; [done|].
    rewrite IH. destruct (comprension F l) as [e|yss]; simpl; [done|].
    by rewrite app_assoc.
Qed.

(** ** El diccionario [variables_tablero] *)

Lemma elem_of_range n i : i ∈ range n ↔ 0 ≤ i < n.
Proof. unfold range. rewrite elem_of_seqZ. lia. Qed.

Lemma elem_of_claves n k : k ∈ claves n ↔ en_tablero n k.
Proof.
  unfold claves, en_tablero. destruct k as [f c]. simpl.
  rewrite list_elem_of_bind. split.
  - intros (f' & Hc & Hf). apply list_elem_of_bind in Hc as (c' & Hk & Hc).
    apply list_elem_of_singleton in Hk as [= -> ->].
    by rewrite <- !elem_of_range.
  - intros [Hf Hc]. exists f. rewrite elem_of_range. split; [|done].
    apply list_elem_of_bind. exists c. rewrite elem_of_range.
    split; [by apply list_elem_of_singleton | done].
Qed.

Lemma foldl_anidado {St} (g : Z → St → Z → St) (filas columnas : list Z) (st : St) :
  foldl (λ st fila, foldl (g fila) st columnas) st filas
  = foldl (λ st k, g k.1 st k.2) st (fila ← filas; columna ← columnas; [(fila, columna)]).
Proof.
  revert st. induction filas as [|f filas IH]; intros st; simpl; [done|].
  rewrite foldl_app, <- IH. f_equal.
  generalize st. clear. induction columnas as [|c columnas IH]; intros st; simpl; [done|].
  by rewrite IH.
Qed.

Lemma crear_celdas_spec (n : Z) (ks : list (Z * Z)) (T : gmap (Z * Z) var) (s : list expr) :
  (∀ k, (foldl (λ st k, crear_celda n k.1 st k.2) (T, s) ks).1 !! k
        = if decide (k ∈ ks) then Some (nombre_celda k.1 k.2) else T !! k)
  ∧ (foldl (λ st k, crear_celda n k.1 st k.2) (T, s) ks).2
    = s ++ (k ← ks; [Ge (nombre_celda k.1 k.2) 1; Le (nombre_celda k.1 k.2) n]).
Proof.
  revert T s. induction ks as [|k0 ks IH]; intros T s; simpl.
  - split; [done | by rewrite app_nil_r].
  - destruct (IH (crear_celda n k0.1 (T, s) k0.2).1 (crear_celda n k0.1 (T, s) k0.2).2)
      as [IH1 IH2].
    rewrite <- surjective_pairing in IH1, IH2. split.
    + intros k. rewrite IH1. unfold crear_celda, Int. simpl.
      destruct (decide (k = k0)) as [->|Hne].
      * rewrite (decide_True (P := k0 ∈ k0 :: ks)) by left.
        case_decide; [done|]. rewrite <- surjective_pairing. apply lookup_insert_eq.
      * rewrite <- surjective_pairing, lookup_insert_ne by done.
        repeat case_decide; try done; set_solver.
    + rewrite IH2. unfold crear_celda. simpl. by rewrite <- app_assoc.
Qed.

Lemma crear_variables_tabla n k :
  (crear_variables n).1 !! k
  = if decide (en_tablero n k) then Some (nombre_celda k.1 k.2) else None.
Proof.
  unfold crear_variables. rewrite foldl_anidado.
  destruct (crear_celdas_spec n (claves n) ∅ []) as [H _]. unfold claves in H at 1.
  rewrite H. repeat case_decide; try done; by rewrite ?elem_of_claves in *.
Qed.

Lemma crear_variables_solver n : (crear_variables n).2 = cotas n.
Proof.
  unfold crear_variables. rewrite foldl_anidado.
  destruct (crear_celdas_spec n (claves n) ∅ []) as [_ H]. unfold claves in H at 1.
  by rewrite H.
Qed.

Lemma elemento_tabla n k :
  elemento (crear_variables n).1 k
  = if decide (en_tablero n k) then inr (nombre_celda k.1 k.2) else inl (KeyError k).
Proof. unfold elemento. rewrite crear_variables_tabla. by case_decide. Qed.

(** ** Resultado de la construcción

    Cada paso de la construcción o bien tiene éxito con un valor conocido, o
    bien levanta [KeyError]: [determina n r P a] dice que [r] vale [a] cuando
    [P], y que es el [KeyError] de una clave fuera del tablero cuando no. *)
Lemma determina_inr {A} (n : Z) (a : A) : determina n (inr a) True a.
Proof. split; [done | tauto]. Qed.

Lemma determina_ligar {A B} (n : Z) (r : res A) (f : A → res B) (P Q : Prop) a b :
  Decision P → determina n r P a → (P → determina n (f a) Q b) →
  determina n (x <~ r ;; f x) (P ∧ Q) b.
Proof.
  intros HP [Hr1 Hr2] Hf. destruct (decide P) as [p|np].
  - rewrite (Hr1 p). simpl. destruct (Hf p) as [Hf1 Hf2].
    split; [tauto | intros; apply Hf2; tauto].
  - destruct (Hr2 np) as (k & Hk & ->). simpl. split; [tauto | eauto].
Qed.

Lemma determina_iff {A} (n : Z) (r : res A) (P Q : Prop) a :
  (P ↔ Q) → determina n r P a → determina n r Q a.
Proof. unfold determina. tauto. Qed.

Lemma determina_elemento (n : Z) (k : Z * Z) :
  determina n (elemento (crear_variables n).1 k) (en_tablero n k) (nombre_celda k.1 k.2).
Proof.
  rewrite elemento_tabla. split; intros H.
  - by rewrite decide_True.
  - rewrite decide_False by done. eauto.
Qed.

Lemma determina_comprension {A B} (n : Z) (F : A → res B) (P : A → Prop) (G : A → B) (l : list A) :
  (∀ x, Decision (P x)) →
  (∀ x, x ∈ l → determina n (F x) (P x) (G x)) →
  determina n (comprension F l) (Forall P l) (G <$> l).
Proof.
  intros HP. induction l as [|x l IH]; intros HF; simpl.
  - split; [done|]. intros H. exfalso. apply H. constructor.
  - apply (determina_iff n _ (P x ∧ (Forall P l ∧ True))).
    { rewrite Forall_cons. tauto. }
    apply determina_ligar with (a := G x); [apply _ | apply HF; left|]. intros _.
    apply determina_ligar with (a := G <$> l); [apply _| |intros; apply determina_inr].
    apply IH. intros y Hy. apply HF. by right.
Qed.

Lemma concat_fmap {A B} (G : A → list B) (l : list A) : concat (G <$> l) = l ≫= G.
Proof. induction l as [|x l IH]; csimpl; [done | by rewrite IH]. Qed.

Lemma determina_para {A} (n : Z) (F : A → res (list expr))
    (cuerpo : list expr → A → res (list expr))
    (P : A → Prop) (G : A → list expr) (l : list A) (s : list expr) :
  (∀ x, Decision (P x)) →
  (∀ s x, cuerpo s x = (ys <~ F x ;; inr (s ++ ys))) →
  (∀ x, x ∈ l → determina n (F x) (P x) (G x)) →
  determina n (para l cuerpo s) (Forall P l) (s ++ (l ≫= G)).
Proof.
  intros HP Hc HF. rewrite (para_agrega F) by done.
  apply (determina_iff n _ (Forall P l ∧ True)); [tauto|].
  apply determina_ligar with (a := G <$> l); [apply _|by apply determina_comprension|].
  intros _. rewrite concat_fmap. apply determina_inr.
Qed.

Lemma para_inr_agrega {A} (G : A → list expr) (cuerpo : list expr → A → res (list expr)) l s :
  (∀ s x, x ∈ l → cuerpo s x = inr (s ++ G x)) →
  para l cuerpo s = inr (s ++ (l ≫= G)).
Proof.
  revert s. induction l as [|x l IH]; intros s Hc; csimpl.
  - by rewrite app_nil_r.
  - rewrite Hc by left. simpl. rewrite IH, app_assoc; [done|].
    intros s' y Hy. apply Hc. by right.
Qed.

Lemma elem_of_claves_bloque (s fi ci : Z) (k : Z * Z) :
  k ∈ claves_bloque s fi ci ↔ ∃ r c, 0 ≤ r < s ∧ 0 ≤ c < s ∧ k = (fi + r, ci + c).
Proof.
  unfold claves_bloque. rewrite list_elem_of_bind. split.
  - intros (r & Hk & Hr%elem_of_range).
    apply list_elem_of_bind in Hk as (c & Hk & Hc%elem_of_range).
    apply list_elem_of_singleton in Hk. eauto.
  - intros (r & c & Hr & Hc & ->). exists r. rewrite elem_of_range. split; [|done].
    apply list_elem_of_bind. exists c. rewrite elem_of_range.
    split; [by apply list_elem_of_singleton | done].
Qed.

Lemma z3_Distinct_ok (vs : list var) : vs ≠ [] → z3_Distinct vs = inr (Distinct vs).
Proof. by destruct vs. Qed.

Lemma restringir_fila_ok (n fila : Z) (s : list expr) :
  fila ∈ range n →
  restringir_fila n (crear_variables n).1 s fila
  = inr (s ++ [Distinct (fila_vars n fila); Distinct (columna_vars n fila)]).
Proof.
  intros Hf. apply elem_of_range in Hf. unfold restringir_fila.
  pose proof (determina_comprension n
    (λ columna, elemento (crear_variables n).1 (fila, columna))
    (λ columna, en_tablero n (fila, columna)) (λ columna, nombre_celda fila columna)
    (range n) _ (λ x _, determina_elemento n (fila, x))) as [H1 _].
  pose proof (determina_comprension n
    (λ columna, elemento (crear_variables n).1 (columna, fila))
    (λ columna, en_tablero n (columna, fila)) (λ columna, nombre_celda columna fila)
    (range n) _ (λ x _, determina_elemento n (x, fila))) as [H2 _].
  assert (∀ f : Z → var, f <$> range n ≠ []) as Hne.
  { intros f Hnil%fmap_nil_inv. apply elem_of_range in Hf. rewrite Hnil in Hf.
    by apply elem_of_nil in Hf. }
  rewrite H1; simpl.
  - rewrite z3_Distinct_ok by apply Hne. simpl. rewrite H2; simpl.
    + rewrite z3_Distinct_ok by apply Hne. simpl. by rewrite <- app_assoc.
    + apply Forall_forall. intros c Hc%elem_of_range. by split.
  - apply Forall_forall. intros c Hc%elem_of_range. by split.
Qed.

Lemma expr_bloque_determina (n s fi ci : Z) :
  1 ≤ s →
  determina n (expr_bloque (crear_variables n).1 s fi ci)
    (Forall (en_tablero n) (claves_bloque s fi ci)) [Distinct (bloque_vars s fi ci)].
Proof.
  intros Hs. unfold expr_bloque.
  apply (determina_iff n _ (Forall (en_tablero n) (claves_bloque s fi ci) ∧ True)); [tauto|].
  apply determina_ligar with (a := bloque_vars s fi ci); [apply _| |].
  - apply determina_comprension; [apply _|]. intros k _. apply determina_elemento.
  - intros _. rewrite z3_Distinct_ok; [apply determina_inr|].
    intros Hnil%fmap_nil_inv.
    assert ((fi + 0, ci + 0) ∈ claves_bloque s fi ci) as Hin.
    { apply elem_of_claves_bloque. exists 0, 0. split; [lia|]. split; [lia|]. done. }
    rewrite Hnil in Hin. by apply elem_of_nil in Hin.
Qed.

Lemma sqrt_pos (n : Z) : 1 ≤ n → 1 ≤ Z.sqrt n.
Proof. intros. pose proof (Z.sqrt_le_mono 1 n). rewrite Z.sqrt_1 in *. lia. Qed.

(** Sin jaulas y para [n >= 1], la construcción solo puede fallar con
    [KeyError], y solo si un bloque se sale del tablero. *)
Lemma construir_sin_jaulas (n : Z) :
  1 ≤ n →
  determina n (construir [] n) (bloques_en_tablero n (Z.sqrt n))
    ((crear_variables n).1, base n).
Proof.
  intros Hn. unfold construir.
  rewrite (surjective_pairing (crear_variables n)), crear_variables_solver.
  rewrite (para_inr_agrega (λ fila, [Distinct (fila_vars n fila); Distinct (columna_vars n fila)]))
    by (intros; by apply restringir_fila_ok).
  simpl. unfold raiz_entera. rewrite decide_False by lia. simpl.
  pose proof (sqrt_pos n Hn) as Hs. unfold range_paso. rewrite decide_False by lia. simpl.
  fold (inicios n (Z.sqrt n)). fold (filas_columnas n).
  apply (determina_iff n _ (bloques_en_tablero n (Z.sqrt n) ∧ True)); [tauto|].
  apply determina_ligar with (a := base n); [apply _| |intros; apply determina_inr].
  apply determina_para with (F := λ fi, yss <~ comprension (expr_bloque (crear_variables n).1 (Z.sqrt n) fi) (inicios n (Z.sqrt n)) ;; inr (concat yss)).
  - apply _.
  - intros s fi.
    rewrite (para_agrega (expr_bloque (crear_variables n).1 (Z.sqrt n) fi)).
    + by destruct (comprension _ _).
    + intros s' ci. unfold restringir_bloque, expr_bloque.
      destruct (comprension _ _) as [e|b]; simpl; [done|]. by destruct (z3_Distinct b).
  - intros fi _.
    apply (determina_iff n _ (Forall (λ ci, Forall (en_tablero n) (claves_bloque (Z.sqrt n) fi ci)) (inicios n (Z.sqrt n)) ∧ True)); [tauto|].
    apply determina_ligar with (a := (λ ci, [Distinct (bloque_vars (Z.sqrt n) fi ci)]) <$> inicios n (Z.sqrt n)); [apply _| |].
    + apply determina_comprension; [apply _|]. intros ci _. by apply expr_bloque_determina.
    + intros _. rewrite concat_fmap. apply determina_inr.
Qed.

(** Las jaulas se procesan al final y en orden. *)
Lemma construir_app (r1 r2 : list jaula) (n : Z) :
  construir (r1 ++ r2) n
  = (st <~ construir r1 n ;;
     solucionador <~ para r2 (restringir_jaula st.1) st.2 ;;
     inr (st.1, solucionador)).
Proof.
  unfold construir. destruct (crear_variables n) as [T s0].
  destruct (para (range n) (restringir_fila n T) s0) as [e|s1]; simpl; [done|].
  destruct (raiz_entera n) as [e|sub]; simpl; [done|].
  destruct (range_paso n sub) as [e|ini]; simpl; [done|].
  destruct (para ini _ s1) as [e|s2]; simpl; [done|].
  rewrite para_app. destruct (para r1 (restringir_jaula T) s2) as [e|s3]; simpl; [done|].
  by destruct (para r2 (restringir_jaula T) s3).
Qed.

(** *** Una jaula *)

Lemma celdas_jaula_determina (n : Z) (j : jaula) :
  determina n
    (comprension (λ '(fila, columna), elemento (crear_variables n).1 (fila - 1, columna - 1)) j.2)
    (jaula_en_tablero n j) (jaula_vars j.2).
Proof.
  apply determina_comprension; [apply _|]. intros [f c] _.
  apply (determina_elemento n (f - 1, c - 1)).
Qed.

Lemma restringir_jaula_ok (n : Z) (s : list expr) (j : jaula) :
  jaula_en_tablero n j → j.2 ≠ [] →
  restringir_jaula (crear_variables n).1 s j
  = inr (s ++ [SumEq (jaula_vars j.2) j.1; Distinct (jaula_vars j.2)]).
Proof.
  intros Hj Hne. destruct (celdas_jaula_determina n j) as [Hok _].
  destruct j as [t cs]. unfold restringir_jaula. simpl in *. rewrite (Hok Hj). simpl.
  unfold agregar_restriccion_jaula. destruct cs as [|k cs]; [done|]. simpl.
  by rewrite <- app_assoc.
Qed.

Lemma restringir_jaula_vacia (n : Z) (s : list expr) (t : Z) :
  restringir_jaula (crear_variables n).1 s (t, []) = inl Z3Exception.
Proof. reflexivity. Qed.

Lemma restringir_jaula_fuera (n : Z) (s : list expr) (j : jaula) :
  ¬ jaula_en_tablero n j →
  ∃ k, ¬ en_tablero n k ∧ restringir_jaula (crear_variables n).1 s j = inl (KeyError k).
Proof.
  intros Hj. destruct (celdas_jaula_determina n j) as [_ Hno].
  destruct (Hno Hj) as (k & Hk & Hc). exists k. split; [done|].
  destruct j as [t cs]. unfold restringir_jaula. simpl in *. by rewrite Hc.
Qed.

(** *** El bucle de las jaulas *)

Lemma para_jaulas_ok (n : Z) (restricciones : list jaula) (s : list expr) :
  Forall (jaula_buena n) restricciones →
  para restricciones (restringir_jaula (crear_variables n).1) s = inr (s ++ jaulas restricciones).
Proof.
  intros H. revert s. induction H as [|j r [Hj Hne] Hr IH]; intros s; csimpl.
  - by rewrite app_nil_r.
  - rewrite (restringir_jaula_ok n s j Hj Hne). simpl. rewrite IH. by rewrite <- app_assoc.
Qed.

(** El bucle falla en la primera jaula que no es buena: con [KeyError] si
    nombra una celda fuera del tablero, con [Z3Exception] si está vacía. *)
Lemma para_jaulas_primera_mala (n : Z) (pre post : list jaula) (j : jaula) (s : list expr) :
  Forall (jaula_buena n) pre → ¬ jaula_buena n j →
  (¬ jaula_en_tablero n j
   ∧ ∃ k, ¬ en_tablero n k
          ∧ para (pre ++ j :: post) (restringir_jaula (crear_variables n).1) s = inl (KeyError k))
  ∨ (j.2 = []
     ∧ para (pre ++ j :: post) (restringir_jaula (crear_variables n).1) s = inl Z3Exception).
Proof.
  intros Hpre Hj. rewrite para_app, (para_jaulas_ok n pre s Hpre). simpl.
  destruct (decide (jaula_en_tablero n j)) as [Hen|Hfuera].
  - right. assert (j.2 = []) as Hv.
    { destruct (decide (j.2 = [])); [done|]. exfalso. by apply Hj. }
    split; [done|]. destruct j as [t cs]. simpl in Hv. subst cs. by rewrite restringir_jaula_vacia.
  - left. split; [done|].
    destruct (restringir_jaula_fuera n (s ++ jaulas pre) j Hfuera) as (k & Hk & ->). eauto.
Qed.

Lemma primera_mala (n : Z) (restricciones : list jaula) :
  ¬ Forall (jaula_buena n) restricciones →
  ∃ pre j post, restricciones = pre ++ j :: post ∧ Forall (jaula_buena n) pre ∧ ¬ jaula_buena n j.
Proof.
  induction restricciones as [|j r IH]; intros H.
  - exfalso. apply H. constructor.
  - destruct (decide (jaula_buena n j)) as [Hj|Hj].
    + destruct IH as (pre & j' & post & -> & Hpre & Hj').
      { intros Hr. apply H. by constructor. }
      exists (j :: pre), j', post. split; [done|]. split; [by constructor | done].
    + exists [], j, r. split; [done|]. split; [constructor | done].
Qed.

(** *** La construcción entera, para [n >= 1] *)

Lemma construir_ok (restricciones : list jaula) (n : Z) :
  1 ≤ n → bloques_en_tablero n (Z.sqrt n) → Forall (jaula_buena n) restricciones →
  construir restricciones n = inr ((crear_variables n).1, base n ++ jaulas restricciones).
Proof.
  intros Hn Hb Hj. rewrite (construir_app [] restricciones n : construir restricciones n = _).
  destruct (construir_sin_jaulas n Hn) as [Hok _]. rewrite (Hok Hb). simpl.
  by rewrite (para_jaulas_ok n restricciones (base n) Hj).
Qed.

(** Cuando falla: [KeyError] de una clave fuera del tablero, o
    [Z3Exception] en una jaula vacía a la que se llega. *)
Lemma construir_falla (restricciones : list jaula) (n : Z) :
  1 ≤ n → ¬ (bloques_en_tablero n (Z.sqrt n) ∧ Forall (jaula_buena n) restricciones) →
  (∃ k, ¬ en_tablero n k ∧ construir restricciones n = inl (KeyError k))
  ∨ (construir restricciones n = inl Z3Exception
     ∧ ∃ pre t post, restricciones = pre ++ (t, []) :: post ∧ Forall (jaula_buena n) pre).
Proof.
  intros Hn Hno. rewrite (construir_app [] restricciones n : construir restricciones n = _).
  destruct (construir_sin_jaulas n Hn) as [Hok Hfalla].
  destruct (decide (bloques_en_tablero n (Z.sqrt n))) as [Hb|Hb].
  - rewrite (Hok Hb). simpl.
    destruct (primera_mala n restricciones) as (pre & j & post & -> & Hpre & Hj); [tauto|].
    destruct (para_jaulas_primera_mala n pre post j (base n) Hpre Hj)
      as [(_ & k & Hk & ->)|[Hv ->]]; simpl.
    + left. eauto.
    + right. split; [done|]. destruct j as [t cs]. simpl in Hv. subst cs. eauto.
  - destruct (Hfalla Hb) as (k & Hk & ->). simpl. left. eauto.
Qed.

(** Una jaula con una celda fuera del tablero, a la que se llega sin pasar
    por una jaula vacía, hace fallar la construcción con [KeyError]. *)
Lemma construir_fuera (pre post : list jaula) (j : jaula) (n : Z) :
  1 ≤ n → Forall (λ j' : jaula, j'.2 ≠ []) pre → ¬ jaula_en_tablero n j →
  ∃ k, ¬ en_tablero n k ∧ construir (pre ++ j :: post) n = inl (KeyError k).
Proof.
  intros Hn Hpre Hj.
  rewrite (construir_app [] (pre ++ j :: post) n : construir (pre ++ j :: post) n = _).
  destruct (construir_sin_jaulas n Hn) as [Hok Hfalla].
  destruct (decide (bloques_en_tablero n (Z.sqrt n))) as [Hb|Hb];
    [|destruct (Hfalla Hb) as (k & Hk & ->); simpl; eauto].
  rewrite (Hok Hb). simpl.
  destruct (primera_mala n (pre ++ [j])) as (pre1 & j1 & post1 & Heq & Hpre1 & Hj1).
  { rewrite Forall_app, Forall_singleton. intros [_ [? _]]. done. }
  assert (¬ jaula_en_tablero n j1) as Hfuera.
  { assert (j1 ∈ pre ++ [j]) as Hin by (rewrite Heq; set_solver).
    apply elem_of_app in Hin as [Hin|Hin%list_elem_of_singleton]; [|by subst].
    rewrite Forall_forall in Hpre. specialize (Hpre _ Hin). intros Hen. by apply Hj1. }
  replace (pre ++ j :: post) with (pre1 ++ j1 :: (post1 ++ post)).
  2:{ change (j :: post) with ([j] ++ post). rewrite app_assoc, Heq, <- app_assoc. done. }
  destruct (para_jaulas_primera_mala n pre1 (post1 ++ post) j1 (base n) Hpre1 Hj1)
    as [(_ & k & Hk & ->)|[Hv _]]; simpl; [eauto|].
  exfalso. apply Hfuera. unfold jaula_en_tablero. rewrite Hv. constructor.
Qed.

Lemma construir_cero (restricciones : list jaula) : construir restricciones 0 = inl ValueError.
Proof. reflexivity. Qed.

Lemma construir_negativo (restricciones : list jaula) (n : Z) :
  n < 0 →
  construir restricciones n
  = inl (if decide (n ≤ - limite_flotante) then OverflowError else TypeError).
Proof.
  intros Hn. unfold construir, crear_variables, range.
  rewrite (seqZ_nil 0 n) by lia. simpl.
  unfold raiz_entera. rewrite decide_True by done. by case_decide.
Qed.

Lemma construir_inr_buenas (restricciones : list jaula) (n : Z) T A :
  construir restricciones n = inr (T, A) →
  1 ≤ n ∧ bloques_en_tablero n (Z.sqrt n) ∧ Forall (jaula_buena n) restricciones.
Proof.
  intros H. destruct (decide (1 ≤ n)) as [Hn|Hn].
  - destruct (decide (bloques_en_tablero n (Z.sqrt n)
                      ∧ Forall (jaula_buena n) restricciones)) as [p|np]; [tauto|].
    destruct (construir_falla restricciones n Hn np) as [(k & _ & Hk)|[Hk _]]; congruence.
  - destruct (decide (n = 0)) as [->|].
    + by rewrite construir_cero in H.
    + rewrite construir_negativo in H by lia. done.
Qed.

Lemma construir_inr (restricciones : list jaula) (n : Z) T A :
  construir restricciones n = inr (T, A) →
  1 ≤ n ∧ T = (crear_variables n).1 ∧ A = base n ++ jaulas restricciones
  ∧ Forall (jaula_en_tablero n) restricciones ∧ bloques_en_tablero n (Z.sqrt n).
Proof.
  intros H. pose proof (construir_inr_buenas _ _ _ _ H) as (Hn & Hb & Hj).
  rewrite (construir_ok restricciones n Hn Hb Hj) in H. injection H as <- <-.
  repeat split; try done. eapply Forall_impl; [exact Hj|]. by intros j [? _].
Qed.

Lemma inicios_multiplo (n s fi : Z) : fi ∈ inicios n s → ∃ i, 0 ≤ i ∧ fi = i * s ∧ (0 < s → i * s < n).
Proof.
  unfold inicios. intros (i & -> & Hi)%list_elem_of_fmap.
  apply elem_of_seqZ in Hi. exists i. split; [lia|]. split; [done|].
  intros Hs. assert (i + 1 ≤ (n + s - 1) `div` s) as Hle by lia.
  pose proof (Z.mul_div_le (n + s - 1) s Hs). nia.
Qed.

(** Si la subcuadrícula divide a la dimensión, ningún bloque se sale. *)
Lemma bloques_en_tablero_divide (n : Z) :
  1 ≤ n → (Z.sqrt n | n) → bloques_en_tablero n (Z.sqrt n).
Proof.
  intros Hn [q Hq]. pose proof (sqrt_pos n Hn) as Hs.
  unfold bloques_en_tablero. rewrite Forall_forall. intros fi Hfi.
  rewrite Forall_forall. intros ci Hci. rewrite Forall_forall. intros k Hk.
  apply elem_of_claves_bloque in Hk as (r & c & Hr & Hc & ->).
  apply inicios_multiplo in Hfi as (i & Hi0 & -> & Hi).
  apply inicios_multiplo in Hci as (j & Hj0 & -> & Hj).
  specialize (Hi ltac:(lia)). specialize (Hj ltac:(lia)).
  unfold en_tablero. simpl.
  assert (i < q) by nia. assert (j < q) by nia. nia.
Qed.

(** ** El bucle de enumeración *)

Lemma imprimir_ok (n : Z) (m : modelo) :
  imprimir n (crear_variables n).1 m = inr (tablero_de n m).
Proof.
  unfold imprimir, tablero_de.
  apply comprension_inr, Forall2_fmap_r, Forall_Forall2_diag, Forall_forall.
  intros f Hf%elem_of_range.
  apply comprension_inr, Forall2_fmap_r, Forall_Forall2_diag, Forall_forall.
  intros c Hc%elem_of_range.
  rewrite elemento_tabla, decide_True; [done | by split].
Qed.

Lemma bloqueo_ok (n : Z) (m : modelo) :
  bloqueo n (crear_variables n).1 m = inr (clausula n m).
Proof.
  unfold bloqueo, clausula. fold (claves n).
  assert (comprension (λ '(fila, columna),
            v <~ elemento (crear_variables n).1 (fila, columna) ;;
            w <~ elemento (crear_variables n).1 (fila, columna) ;;
            inr (v, m w)) (claves n)
          = inr ((λ k, (nombre_celda k.1 k.2, m (nombre_celda k.1 k.2))) <$> claves n)) as ->; [|done].
  apply comprension_inr, Forall2_fmap_r, Forall_Forall2_diag, Forall_forall.
  intros [f c] Hk%elem_of_claves.
  by rewrite elemento_tabla, decide_True.
Qed.

Lemma valor_tablero_de (n : Z) (m : modelo) (f c : Z) :
  0 ≤ f < n → 0 ≤ c < n → valor (tablero_de n m) f c = m (nombre_celda f c).
Proof.
  intros Hf Hc. unfold valor, tablero_de, range.
  rewrite (list_lookup_total_alt _ (Z.to_nat f)), list_lookup_fmap.
  rewrite (lookup_seqZ_lt 0 n) by lia. simpl.
  rewrite (list_lookup_total_alt _ (Z.to_nat c)), list_lookup_fmap.
  rewrite (lookup_seqZ_lt 0 n) by lia. simpl.
  do 2 f_equal; lia.
Qed.

Lemma hallados_snoc Z3 n A0 ms m :
  hallados Z3 n A0 ms → check Z3 (A0 ++ (clausula n <$> ms)) = Some m →
  hallados Z3 n A0 (ms ++ [m]).
Proof.
  intros Hms Hm i m' Hi.
  destruct (decide (i < length ms)%nat) as [Hlt|Hge].
  - rewrite lookup_app_l in Hi by done. rewrite take_app_le by lia. by apply Hms.
  - rewrite lookup_app_r in Hi by lia.
    destruct (i - length ms)%nat as [|j] eqn:Hj; [|by destruct j].
    injection Hi as <-. assert (i = length ms) as -> by lia.
    by rewrite take_app_length.
Qed.

Lemma bucle_paso Z3 (n : Z) (fuel : nat) (s : list expr) (c : Z) (imp : list tablero) :
  bucle Z3 n (crear_variables n).1 (S fuel) s c imp
  = match check Z3 s with
    | None => Some (inr (Build_salida c imp s))
    | Some m => bucle Z3 n (crear_variables n).1 fuel (s ++ [clausula n m]) (c + 1)
                  (imp ++ [tablero_de n m])
    end.
Proof.
  simpl. destruct (check Z3 s) as [m|]; [|done]. by rewrite imprimir_ok, bloqueo_ok.
Qed.

Lemma bucle_spec Z3 (n : Z) (A0 : list expr) (fuel : nat) (ms : list modelo) r :
  hallados Z3 n A0 ms →
  bucle Z3 n (crear_variables n).1 fuel (A0 ++ (clausula n <$> ms))
    (Z.of_nat (length ms)) (tablero_de n <$> ms) = Some r →
  ∃ ms', hallados Z3 n A0 ms' ∧ check Z3 (A0 ++ (clausula n <$> ms')) = None
         ∧ r = inr (salida_de n A0 ms').
Proof.
  revert ms. induction fuel as [|fuel IH]; intros ms Hms; simpl; [done|].
  destruct (check Z3 _) as [m|] eqn:Hck.
  - rewrite imprimir_ok, bloqueo_ok. intros H.
    apply (IH (ms ++ [m])); [by apply hallados_snoc|].
    rewrite fmap_app, length_app, app_assoc, Nat2Z.inj_add. simpl.
    by rewrite fmap_app.
  - intros [= <-]. eauto.
Qed.

(** Lo que el programa hace, en una frase: o la construcción falla, o el
    bucle enumera una lista de modelos [ms] hasta que [check] deja de
    responder [sat]. *)
Lemma resolver_spec Z3 (fuel : nat) (restricciones : list jaula) (n : Z) (out : salida) :
  resolver_sudoku_killer Z3 fuel restricciones n = Some (inr out) →
  ∃ ms, 1 ≤ n ∧ Forall (jaula_en_tablero n) restricciones
        ∧ bloques_en_tablero n (Z.sqrt n)
        ∧ construir restricciones n = inr ((crear_variables n).1, base n ++ jaulas restricciones)
        ∧ hallados Z3 n (base n ++ jaulas restricciones) ms
        ∧ check Z3 ((base n ++ jaulas restricciones) ++ (clausula n <$> ms)) = None
        ∧ out = salida_de n (base n ++ jaulas restricciones) ms.
Proof.
  unfold resolver_sudoku_killer.
  destruct (construir restricciones n) as [e|[T A]] eqn:Hc; [done|].
  apply construir_inr in Hc as (Hn & -> & -> & Hj & Hb). intros H.
  destruct (bucle_spec Z3 n (base n ++ jaulas restricciones) fuel [] (inr out))
    as (ms & H1 & H2 & [= ->]).
  - intros i m Hi. by rewrite lookup_nil in Hi.
  - simpl. by rewrite app_nil_r.
  - exists ms. repeat split; done.
Qed.

(** *** Lo que satisface un modelo hallado *)

Lemma satisface_app m A B : satisface m (A ++ B) ↔ satisface m A ∧ satisface m B.
Proof. apply Forall_app. Qed.

Lemma hallados_satisface Z3 n A0 ms i m :
  hallados Z3 n A0 ms → ms !! i = Some m →
  satisface m A0 ∧ ∀ j m', (j < i)%nat → ms !! j = Some m' → interp m (clausula n m').
Proof.
  intros Hms Hi. apply Hms, check_sat, satisface_app in Hi as Hsat.
  destruct Hsat as [H0 Hb]. split; [done|]. intros j m' Hj Hm'.
  unfold satisface in Hb. rewrite Forall_forall in Hb. apply Hb.
  apply list_elem_of_fmap. exists m'. split; [done|].
  apply list_elem_of_lookup. exists j. rewrite lookup_take_lt; done.
Qed.

Lemma interp_clausula n m m' :
  interp m (clausula n m') ↔
  ∃ f c, 0 ≤ f < n ∧ 0 ≤ c < n ∧ m (nombre_celda f c) ≠ m' (nombre_celda f c).
Proof.
  unfold clausula. simpl. rewrite Exists_exists. split.
  - intros ([v x] & Hin & Hne). apply list_elem_of_fmap in Hin as ([f c] & [= -> ->] & Hk).
    apply elem_of_claves in Hk as [Hf Hc]. simpl in *. eauto.
  - intros (f & c & Hf & Hc & Hne). exists (nombre_celda f c, m' (nombre_celda f c)).
    split; [|done]. apply list_elem_of_fmap. exists (f, c). split; [done|].
    by apply elem_of_claves.
Qed.

Lemma tablero_de_eq n m m' :
  tablero_de n m = tablero_de n m' ↔
  ∀ f c, 0 ≤ f < n → 0 ≤ c < n → m (nombre_celda f c) = m' (nombre_celda f c).
Proof.
  split.
  - intros H f c Hf Hc. rewrite <- !(valor_tablero_de n) by done. by rewrite H.
  - intros H. unfold tablero_de. apply list_fmap_ext. intros _ f Hf%list_elem_of_lookup_2.
    apply list_fmap_ext. intros _ c Hc%list_elem_of_lookup_2.
    apply elem_of_range in Hf, Hc. by apply H.
Qed.

(** ** Qué aserciones hay en el solucionador *)

Lemma cotas_en_base (n f c : Z) :
  0 ≤ f < n → 0 ≤ c < n →
  Ge (nombre_celda f c) 1 ∈ base n ∧ Le (nombre_celda f c) n ∈ base n.
Proof.
  intros Hf Hc. unfold base, cotas.
  assert (∀ e, e ∈ [Ge (nombre_celda f c) 1; Le (nombre_celda f c) n] →
               e ∈ (k ← claves n; [Ge (nombre_celda k.1 k.2) 1; Le (nombre_celda k.1 k.2) n])) as H.
  { intros e He. apply list_elem_of_bind. exists (f, c). split; [done|].
    by apply elem_of_claves. }
  split; do 2 (apply elem_of_app; left); apply H; set_solver.
Qed.

Lemma fila_en_base (n f : Z) :
  0 ≤ f < n → Distinct (fila_vars n f) ∈ base n ∧ Distinct (columna_vars n f) ∈ base n.
Proof.
  intros Hf. unfold base, filas_columnas.
  split; apply elem_of_app; left; apply elem_of_app; right;
    apply list_elem_of_bind; exists f; rewrite elem_of_range; (split; [set_solver | done]).
Qed.

Lemma bloque_en_base (n fi ci : Z) :
  fi ∈ inicios n (Z.sqrt n) → ci ∈ inicios n (Z.sqrt n) →
  Distinct (bloque_vars (Z.sqrt n) fi ci) ∈ base n.
Proof.
  intros Hf Hc. unfold base, bloques. apply elem_of_app; right.
  apply list_elem_of_bind. exists fi. split; [|done].
  apply list_elem_of_bind. exists ci. split; [set_solver | done].
Qed.

Lemma jaula_en_jaulas (restricciones : list jaula) (t : Z) (cs : list (Z * Z)) :
  (t, cs) ∈ restricciones →
  SumEq (jaula_vars cs) t ∈ jaulas restricciones ∧ Distinct (jaula_vars cs) ∈ jaulas restricciones.
Proof.
  intros Hj. unfold jaulas.
  split; apply list_elem_of_bind; exists (t, cs); (split; [set_solver | done]).
Qed.

Lemma satisface_elem m A e : satisface m A → e ∈ A → interp m e.
Proof. unfold satisface. rewrite Forall_forall. auto. Qed.

Lemma satisface_cotas (n : Z) (m : modelo) A (f c : Z) :
  satisface m (base n ++ A) → 0 ≤ f < n → 0 ≤ c < n → 1 ≤ m (nombre_celda f c) ≤ n.
Proof.
  intros [Hm _]%satisface_app Hf Hc.
  destruct (cotas_en_base n f c Hf Hc) as [H1 H2].
  pose proof (satisface_elem m _ _ Hm H1) as H1'.
  pose proof (satisface_elem m _ _ Hm H2) as H2'. simpl in *. lia.
Qed.

(** ** Cada valor exactamente una vez *)

Lemma veces_no_esta v l : v ∉ l → veces v l = 0%nat.
Proof.
  unfold veces. induction l as [|x l IH]; intros Hv; [done|].
  rewrite filter_cons. case_decide; [set_solver|]. apply IH. set_solver.
Qed.

Lemma veces_NoDup v l : NoDup l → v ∈ l → veces v l = 1%nat.
Proof.
  unfold veces. induction 1 as [|x l Hx Hl IH]; intros Hv; [set_solver|].
  rewrite filter_cons. case_decide as Hxv.
  - subst x. simpl. f_equal. by apply veces_no_esta.
  - apply IH. set_solver.
Qed.

(** [n] valores distintos entre [1] y [n] son todos los de [1..n]. *)
Lemma distintos_todos (n : Z) (l : list Z) :
  NoDup l → Z.of_nat (length l) = n → Forall (λ x, 1 ≤ x ≤ n) l →
  ∀ v, 1 ≤ v ≤ n → veces v l = 1%nat.
Proof.
  intros Hnd Hlen Hr v Hv. apply veces_NoDup; [done|].
  assert (l ⊆+ seqZ 1 n) as Hsub.
  { apply NoDup_submseteq; [done|]. intros x Hx. rewrite Forall_forall in Hr.
    apply elem_of_seqZ. specialize (Hr x Hx). lia. }
  apply submseteq_length_Permutation in Hsub.
  - rewrite Hsub. apply elem_of_seqZ. lia.
  - rewrite length_seqZ. lia.
Qed.

Lemma fila_de_tablero (n : Z) (m : modelo) (f : Z) :
  0 ≤ f < n → fila_de (tablero_de n m) f = m <$> fila_vars n f.
Proof.
  intros Hf. unfold fila_de, tablero_de, fila_vars, range.
  rewrite (list_lookup_total_alt _ (Z.to_nat f)), list_lookup_fmap.
  rewrite (lookup_seqZ_lt 0 n) by lia. simpl.
  rewrite <- list_fmap_compose. apply list_fmap_ext. intros _ c _. simpl.
  do 2 f_equal. lia.
Qed.

Lemma columna_de_tablero (n : Z) (m : modelo) (c : Z) :
  0 ≤ c < n → columna_de n (tablero_de n m) c = m <$> columna_vars n c.
Proof.
  intros Hc. unfold columna_de, columna_vars. rewrite <- list_fmap_compose.
  apply list_fmap_ext. intros _ f Hf%list_elem_of_lookup_2%elem_of_range. simpl.
  by apply valor_tablero_de.
Qed.

Lemma bloque_de_tablero (n s : Z) (m : modelo) (fi ci : Z) :
  Forall (en_tablero n) (claves_bloque s fi ci) →
  bloque_de s (tablero_de n m) fi ci = m <$> bloque_vars s fi ci.
Proof.
  intros Hb. unfold bloque_de, bloque_vars. rewrite <- list_fmap_compose.
  apply list_fmap_ext. intros _ k Hk%list_elem_of_lookup_2. simpl.
  rewrite Forall_forall in Hb. destruct (Hb k Hk). by apply valor_tablero_de.
Qed.

Lemma jaula_de_tablero (n : Z) (m : modelo) (cs : list (Z * Z)) :
  jaula_en_tablero n (0, cs) →
  jaula_de (tablero_de n m) cs = m <$> jaula_vars cs.
Proof.
  intros Hb. unfold jaula_de, jaula_vars. rewrite <- list_fmap_compose.
  apply list_fmap_ext. intros _ k Hk%list_elem_of_lookup_2. simpl.
  unfold jaula_en_tablero in Hb. rewrite Forall_forall in Hb.
  destruct (Hb k Hk). by apply valor_tablero_de.
Qed.

(** ** Dominio finito *)

Lemma vars_base (n : Z) e v :
  bloques_en_tablero n (Z.sqrt n) → e ∈ base n → v ∈ vars_de e → var_de_tablero n v.
Proof.
  intros Hb He Hv. unfold base in He. unfold var_de_tablero.
  apply elem_of_app in He as [[He|He]%elem_of_app|He].
  - apply list_elem_of_bind in He as (k & He & Hk%elem_of_claves).
    exists k. split; [done|].
    assert (e = Ge (nombre_celda k.1 k.2) 1 ∨ e = Le (nombre_celda k.1 k.2) n) as [->| ->]
      by set_solver; simpl in Hv; by apply list_elem_of_singleton in Hv.
  - apply list_elem_of_bind in He as (f & He & Hf%elem_of_range).
    assert (e = Distinct (fila_vars n f) ∨ e = Distinct (columna_vars n f)) as [->| ->]
      by set_solver; simpl in Hv;
      apply list_elem_of_fmap in Hv as (c & -> & Hc%elem_of_range).
    + by exists (f, c).
    + by exists (c, f).
  - apply list_elem_of_bind in He as (fi & He & Hfi).
    apply list_elem_of_bind in He as (ci & He & Hci).
    apply list_elem_of_singleton in He as ->. simpl in Hv.
    apply list_elem_of_fmap in Hv as (k & -> & Hk). exists k. split; [|done].
    unfold bloques_en_tablero in Hb. rewrite Forall_forall in Hb.
    specialize (Hb fi Hfi). rewrite Forall_forall in Hb.
    specialize (Hb ci Hci). rewrite Forall_forall in Hb. auto.
Qed.

Lemma vars_jaulas (n : Z) (restricciones : list jaula) e v :
  Forall (jaula_en_tablero n) restricciones →
  e ∈ jaulas restricciones → v ∈ vars_de e → var_de_tablero n v.
Proof.
  intros Hj He Hv. unfold var_de_tablero.
  apply list_elem_of_bind in He as ([t cs] & He & Hin).
  rewrite Forall_forall in Hj. specialize (Hj _ Hin).
  unfold jaula_en_tablero in Hj. rewrite Forall_forall in Hj. simpl in *.
  assert (v ∈ jaula_vars cs) as Hv'.
  { assert (e = SumEq (jaula_vars cs) t ∨ e = Distinct (jaula_vars cs)) as [->| ->]
      by set_solver; done. }
  apply list_elem_of_fmap in Hv' as (k & -> & Hk).
  exists (k.1 - 1, k.2 - 1). split; [auto | done].
Qed.

Lemma vars_clausula (n : Z) (m : modelo) v :
  v ∈ vars_de (clausula n m) → var_de_tablero n v.
Proof.
  unfold clausula, var_de_tablero. simpl. rewrite <- list_fmap_compose.
  intros (k & -> & Hk%elem_of_claves)%list_elem_of_fmap. by exists k.
Qed.

Lemma dominio_finito_solucionador (n : Z) (restricciones : list jaula) (ms : list modelo) :
  bloques_en_tablero n (Z.sqrt n) → Forall (jaula_en_tablero n) restricciones →
  dominio_finito ((base n ++ jaulas restricciones) ++ (clausula n <$> ms)).
Proof.
  intros Hb Hj e v He Hv.
  assert (var_de_tablero n v) as ([f c] & [Hf Hc] & ->).
  { apply elem_of_app in He as [[He|He]%elem_of_app|He].
    - by apply (vars_base n e).
    - by apply (vars_jaulas n restricciones e).
    - apply list_elem_of_fmap in He as (m & -> & _). by apply (vars_clausula n m). }
  destruct (cotas_en_base n f c Hf Hc) as [H1 H2]. simpl.
  split; [exists 1 | exists n]; do 2 (apply elem_of_app; left); done.
Qed.

(** ** Todos los tableros posibles *)

Lemma elem_of_listas {A} (k : nat) (dom : list A) (l : list A) :
  length l = k → Forall (λ x, x ∈ dom) l → l ∈ listas k dom.
Proof.
  intros <-. induction 1 as [|x l Hx Hl IH]; simpl; [set_solver|].
  apply list_elem_of_bind. exists x. split; [|done].
  apply list_elem_of_bind. exists l. split; [set_solver | done].
Qed.

Lemma tablero_de_en_todos (n : Z) (m : modelo) A :
  satisface m (base n ++ A) → tablero_de n m ∈ todos_tableros n.
Proof.
  intros Hm. unfold todos_tableros.
  apply elem_of_listas.
  { unfold tablero_de, range. by rewrite length_fmap, length_seqZ. }
  apply Forall_forall. intros fl Hfl.
  apply list_elem_of_fmap in Hfl as (f & -> & Hf%elem_of_range).
  apply elem_of_listas.
  { unfold range. by rewrite length_fmap, length_seqZ. }
  apply Forall_forall. intros x Hx.
  apply list_elem_of_fmap in Hx as (c & -> & Hc%elem_of_range).
  pose proof (satisface_cotas n m A f c Hm Hf Hc). apply elem_of_seqZ. lia.
Qed.

Lemma hallados_distintos Z3 n A0 ms i j mi mj :
  hallados Z3 n A0 ms → (i < j)%nat → ms !! i = Some mi → ms !! j = Some mj →
  ∃ f c, 0 ≤ f < n ∧ 0 ≤ c < n ∧ mj (nombre_celda f c) ≠ mi (nombre_celda f c).
Proof.
  intros Hms Hij Hi Hj.
  destruct (hallados_satisface Z3 n A0 ms j mj Hms Hj) as [_ H].
  apply interp_clausula. by apply (H i).
Qed.

Lemma hallados_NoDup Z3 n A0 ms : hallados Z3 n A0 ms → NoDup (tablero_de n <$> ms).
Proof.
  intros Hms. apply NoDup_alt. intros i j t Hi Hj.
  rewrite list_lookup_fmap in Hi, Hj.
  destruct (ms !! i) as [mi|] eqn:Hmi; [|done].
  destruct (ms !! j) as [mj|] eqn:Hmj; [|done].
  simpl in *. injection Hi as Hi. injection Hj as Hj.
  assert (tablero_de n mi = tablero_de n mj) as Heq by congruence.
  destruct (Nat.lt_trichotomy i j) as [Hlt|[->|Hlt]]; [|done|]; exfalso.
  - destruct (hallados_distintos Z3 n A0 ms i j mi mj) as (f & c & Hf & Hc & Hne); try done.
    apply Hne. symmetry. by apply (tablero_de_eq n mi mj).
  - destruct (hallados_distintos Z3 n A0 ms j i mj mi) as (f & c & Hf & Hc & Hne); try done.
    apply Hne. by apply (tablero_de_eq n mi mj).
Qed.

Lemma hallados_acotados Z3 n A ms :
  hallados Z3 n (base n ++ A) ms → (length ms ≤ length (todos_tableros n))%nat.
Proof.
  intros Hms. rewrite <- (length_fmap (tablero_de n)).
  apply submseteq_length, NoDup_submseteq; [by eapply hallados_NoDup|].
  intros t (m & -> & Hm)%list_elem_of_fmap.
  apply list_elem_of_lookup in Hm as [i Hi].
  destruct (hallados_satisface Z3 n _ ms i m Hms Hi) as [Hsat _].
  by apply (tablero_de_en_todos n m A).
Qed.

Lemma bucle_termina Z3 (n : Z) A (fuel : nat) (ms : list modelo) :
  hallados Z3 n (base n ++ A) ms →
  (length (todos_tableros n) < length ms + fuel)%nat →
  ∃ r, bucle Z3 n (crear_variables n).1 fuel ((base n ++ A) ++ (clausula n <$> ms))
         (Z.of_nat (length ms)) (tablero_de n <$> ms) = Some r.
Proof.
  revert ms. induction fuel as [|fuel IH]; intros ms Hms Hlt.
  - apply hallados_acotados in Hms. lia.
  - simpl. destruct (check Z3 _) as [m|] eqn:Hck; [|eauto].
    rewrite imprimir_ok, bloqueo_ok.
    destruct (IH (ms ++ [m])) as [r Hr].
    + by apply hallados_snoc.
    + rewrite length_app. simpl. lia.
    + exists r. rewrite <- Hr.
      rewrite !fmap_app, length_app, app_assoc, Nat2Z.inj_add. done.
Qed.

Lemma resolver_termina Z3 (fuel : nat) (restricciones : list jaula) (n : Z) :
  (combustible n ≤ fuel)%nat → ∃ r, resolver_sudoku_killer Z3 fuel restricciones n = Some r.
Proof.
  intros Hfuel. unfold resolver_sudoku_killer.
  destruct (construir restricciones n) as [e|[T A]] eqn:Hc; [eauto|].
  apply construir_inr in Hc as (Hn & -> & -> & Hj & Hb).
  destruct (bucle_termina Z3 n (jaulas restricciones) fuel []) as [r Hr].
  - intros i m Hi. by rewrite lookup_nil in Hi.
  - unfold combustible in Hfuel. simpl. lia.
  - exists r. rewrite <- Hr. simpl. by rewrite app_nil_r.
Qed.

(** Al terminar, todo modelo de las aserciones iniciales está impreso. *)
Lemma enumeracion_completa Z3 (n : Z) (restricciones : list jaula) (ms : list modelo) (m : modelo) :
  bloques_en_tablero n (Z.sqrt n) → Forall (jaula_en_tablero n) restricciones →
  check Z3 ((base n ++ jaulas restricciones) ++ (clausula n <$> ms)) = None →
  satisface m (base n ++ jaulas restricciones) →
  tablero_de n m ∈ tablero_de n <$> ms.
Proof.
  intros Hb Hj Hck Hm.
  destruct (decide (tablero_de n m ∈ tablero_de n <$> ms)) as [|Hno]; [done|].
  exfalso. apply (check_unsat Z3 _ (dominio_finito_solucionador n restricciones ms Hb Hj) Hck m).
  apply satisface_app. split; [done|].
  apply Forall_forall. intros e (m' & -> & Hm')%list_elem_of_fmap.
  destruct (decide (interp m (clausula n m'))) as [|Hni]; [done|].
  exfalso. apply Hno. apply list_elem_of_fmap. exists m'. split; [|done].
  apply tablero_de_eq. intros f c Hf Hc.
  destruct (decide (m (nombre_celda f c) = m' (nombre_celda f c))) as [|Hne]; [done|].
  exfalso. apply Hni, interp_clausula. eauto.
Qed.

(** ** Un solucionador concreto: búsqueda exhaustiva

    La interfaz [QF_FD] tiene al menos un habitante.  Éste enumera todas las
    asignaciones de las constantes que aparecen en el problema dentro de las
    cotas que el propio problema les pone. *)

Lemma interp_ext (m m' : modelo) e :
  (∀ v, v ∈ vars_de e → m v = m' v) → interp m e → interp m' e.
Proof.
  intros H. destruct e as [v k|v k|vs|vs t|lits]; simpl in *.
  - rewrite (H v) by left. done.
  - rewrite (H v) by left. done.
  - by rewrite (list_fmap_ext m m' vs) by (intros i x Hx%list_elem_of_lookup_2; auto).
  - by rewrite (list_fmap_ext m m' vs) by (intros i x Hx%list_elem_of_lookup_2; auto).
  - rewrite !Exists_exists. intros (l & Hl & Hne). exists l. split; [done|].
    rewrite <- (H l.1); [done|]. by apply list_elem_of_fmap_2.
Qed.

Lemma cota_inferior_Some (A : list expr) (v : var) k :
  Ge v k ∈ A → ∃ lo, cota_inferior A v = Some lo ∧ Ge v lo ∈ A.
Proof.
  unfold cota_inferior. induction A as [|e A IH]; intros Hin; [set_solver|].
  destruct e as [w k'| | | |]; simpl;
    try (destruct IH as (lo & ? & ?); [set_solver|]; exists lo; split; [done | by right]).
  destruct (decide (w = v)) as [->|Hne]; simpl.
  - exists k'. split; [done | left].
  - destruct IH as (lo & ? & ?); [set_solver|]. exists lo. split; [done | by right].
Qed.

Lemma cota_superior_Some (A : list expr) (v : var) k :
  Le v k ∈ A → ∃ hi, cota_superior A v = Some hi ∧ Le v hi ∈ A.
Proof.
  unfold cota_superior. induction A as [|e A IH]; intros Hin; [set_solver|].
  destruct e as [|w k'| | |]; simpl;
    try (destruct IH as (lo & ? & ?); [set_solver|]; exists lo; split; [done | by right]).
  destruct (decide (w = v)) as [->|Hne]; simpl.
  - exists k'. split; [done | left].
  - destruct IH as (lo & ? & ?); [set_solver|]. exists lo. split; [done | by right].
Qed.

Lemma elem_of_asignaciones (vs : list var) (dom : var → list Z) (m : modelo) :
  (∀ v, v ∈ vs → m v ∈ dom v) → (λ v, (v, m v)) <$> vs ∈ asignaciones vs dom.
Proof.
  induction vs as [|v vs IH]; intros H; csimpl; [set_solver|].
  apply list_elem_of_bind. exists (m v). split; [|apply H; left].
  apply list_elem_of_bind. exists ((λ v, (v, m v)) <$> vs).
  split; [set_solver|]. apply IH. intros. apply H. by right.
Qed.

Lemma buscar_fmap (vs : list var) (m : modelo) (v : var) :
  v ∈ vs → buscar ((λ v, (v, m v)) <$> vs) v = m v.
Proof.
  induction vs as [|w vs IH]; intros Hv; csimpl; [set_solver|].
  case_decide; [by subst|]. apply IH. set_solver.
Qed.

Lemma check_exhaustivo_sat A m : check_exhaustivo A = Some m → satisface m A.
Proof.
  unfold check_exhaustivo. intros Hm.
  apply fmap_Some in Hm as (a & Ha & ->).
  apply head_Some_elem_of, list_elem_of_filter in Ha. tauto.
Qed.

Lemma check_exhaustivo_unsat A :
  dominio_finito A → check_exhaustivo A = None → ∀ m, ¬ satisface m A.
Proof.
  unfold check_exhaustivo. intros Hfin Hck m Hm.
  apply fmap_None, head_None in Hck.
  assert ((λ v, (v, m v)) <$> variables A ∈
          filter (λ a, satisface (buscar a) A) (asignaciones (variables A) (candidatos A))) as Hin;
    [|rewrite Hck in Hin; set_solver].
  apply list_elem_of_filter. split.
  - apply Forall_forall. intros e He.
    apply (interp_ext m); [|by apply (satisface_elem m A)].
    intros v Hv. symmetry. apply buscar_fmap.
    apply elem_of_remove_dups, list_elem_of_bind. eauto.
  - apply elem_of_asignaciones. intros v Hv.
    apply elem_of_remove_dups, list_elem_of_bind in Hv as (e & Hv & He).
    destruct (Hfin e v He Hv) as [[k1 H1] [k2 H2]].
    apply cota_inferior_Some in H1 as (lo & Hlo & H1).
    apply cota_superior_Some in H2 as (hi & Hhi & H2).
    unfold candidatos. rewrite Hlo, Hhi.
    apply (satisface_elem m A) in H1, H2; try done. simpl in *.
    apply elem_of_seqZ. lia.
Qed.

Definition exhaustivo : QF_FD :=
  {| check := check_exhaustivo;
     check_sat := check_exhaustivo_sat;
     check_unsat := check_exhaustivo_unsat |}.

(** ** Búsqueda verificada de todos los modelos

    Para decidir cuántos modelos tiene una instancia concreta hace falta
    recorrerlos.  [dfs] asigna las constantes en un orden dado y descarta una
    asignación parcial en cuanto contradice una aserción; solo se demuestra
    que no pierde ningún modelo. *)

Lemma todos_true {A} (f : A → bool) (l : list A) :
  (∀ x, x ∈ l → f x = true) → todos f l = true.
Proof.
  induction l as [|x l IH]; intros H; simpl; [done|].
  rewrite H by left. apply IH. intros. apply H. by right.
Qed.

Lemma sin_repetidos_NoDup (l : list Z) : NoDup l → sin_repetidos l = true.
Proof.
  induction 1 as [|x l Hx Hl IH]; simpl; [done|].
  rewrite todos_true; [done|]. intros y Hy.
  apply negb_true_iff, Z.eqb_neq. intros ->. done.
Qed.

Section busqueda.
Variables (lo hi : Z) (m : modelo).

(** [p] es una parte de [m]. *)
Definition parte_de (p : gmap var Z) : Prop := ∀ v x, p !! v = Some x → m v = x.

Lemma omap_sublist (p : gmap var Z) (vs : list var) :
  parte_de p → omap (λ v, p !! v) vs `sublist_of` m <$> vs.
Proof.
  intros Hp. induction vs as [|v vs IH]; csimpl; [constructor|].
  destruct (p !! v) as [x|] eqn:Hv.
  - rewrite (Hp v x Hv). by constructor.
  - by constructor.
Qed.

Lemma resumen_cotas (p : gmap var Z) (vs : list var) :
  parte_de p → (∀ v, v ∈ vs → lo ≤ m v ≤ hi) →
  0 ≤ (resumen p vs).2
  ∧ (resumen p vs).1 + lo * (resumen p vs).2 ≤ suma (m <$> vs)
  ∧ suma (m <$> vs) ≤ (resumen p vs).1 + hi * (resumen p vs).2.
Proof.
  intros Hp. induction vs as [|v vs IH]; intros Hb; csimpl; [lia|].
  destruct IH as (IH0 & IH1 & IH2); [intros; apply Hb; by right|].
  destruct (resumen p vs) as [s r]. simpl in *.
  pose proof (Hb v ltac:(left)) as Hv.
  destruct (p !! v) as [x|] eqn:Hpv; simpl.
  - rewrite (Hp v x Hpv) in *. lia.
  - nia.
Qed.

Lemma consistente_ok (p : gmap var Z) (e : expr) :
  parte_de p → interp m e → (∀ v, v ∈ vars_de e → lo ≤ m v ≤ hi) →
  consistente lo hi p e = true.
Proof.
  intros Hp He Hb. destruct e as [| |vs|vs t|]; simpl in *; try done.
  - apply sin_repetidos_NoDup. apply (sublist_NoDup _ (m <$> vs)); [done | by apply omap_sublist].
  - pose proof (resumen_cotas p vs Hp Hb) as (H0 & H1 & H2).
    destruct (resumen p vs) as [s r]. simpl in *.
    apply andb_true_iff. split; apply Z.leb_le; lia.
Qed.

Lemma parte_de_insert (p : gmap var Z) (v : var) :
  parte_de p → parte_de (<[v:=m v]> p).
Proof.
  intros Hp w x. rewrite lookup_insert_Some. intros [[<- <-]|[_ Hw]]; [done | by apply Hp].
Qed.

Lemma dfs_completo (A : list expr) (plan : list (var * list expr)) (p : gmap var Z) :
  satisface m A →
  (∀ e v, e ∈ A → v ∈ vars_de e → lo ≤ m v ≤ hi) →
  Forall (λ ve, lo ≤ m ve.1 ≤ hi ∧ Forall (λ e, e ∈ A) ve.2) plan →
  parte_de p →
  ∃ q, q ∈ dfs lo hi plan p ∧ parte_de q
       ∧ (∀ v, p !! v = Some (m v) → q !! v = Some (m v))
       ∧ (∀ v, v ∈ plan.*1 → q !! v = Some (m v)).
Proof.
  intros Hm Hb Hplan. revert p.
  induction Hplan as [|[v es] plan [Hv Hes] Hplan IH]; intros p Hp; simpl.
  - exists p. repeat split; [left | done | done | set_solver].
  - destruct (IH (<[v:=m v]> p) (parte_de_insert p v Hp)) as (q & Hq & Hpq & Hmono & Hcov).
    exists q. split; [|split; [done|split]].
    + apply list_elem_of_bind. exists (m v). split; [|apply elem_of_seqZ; simpl in Hv; lia].
      rewrite todos_true; [done|]. intros e He.
      rewrite Forall_forall in Hes. specialize (Hes e He).
      apply consistente_ok; [by apply parte_de_insert | by apply (satisface_elem m A) | eauto].
    + intros w Hw. apply Hmono. destruct (decide (v = w)) as [->|Hne].
      * apply lookup_insert_eq.
      * by rewrite lookup_insert_ne.
    + intros w [->|Hw]%elem_of_cons; [|by apply Hcov].
      apply Hmono, lookup_insert_eq.
Qed.
End busqueda.

Lemma planificar_en (A : list expr) (orden : list var) :
  Forall (λ ve, Forall (λ e, e ∈ A) ve.2) (planificar A orden).
Proof.
  unfold planificar. apply Forall_fmap, Forall_forall. intros v _. simpl.
  apply Forall_forall. intros e He%list_elem_of_filter. tauto.
Qed.

(** [tableros_modelo] contiene el tablero de todo modelo de la instancia. *)
Lemma tableros_modelo_completo (restricciones : list jaula) (n : Z) (orden : list (Z * Z)) (m : modelo) :
  bloques_en_tablero n (Z.sqrt n) → Forall (jaula_en_tablero n) restricciones →
  Forall (en_tablero n) orden → (∀ k, en_tablero n k → k ∈ orden) →
  satisface m (base n ++ jaulas restricciones) →
  tablero_de n m ∈ tableros_modelo restricciones n orden.
Proof.
  intros Hb Hj Hin Hall Hm.
  assert (∀ v, var_de_tablero n v → 1 ≤ m v ≤ n) as Hcotas.
  { intros v ([f c] & [Hf Hc] & ->). by apply (satisface_cotas n m (jaulas restricciones)). }
  destruct (dfs_completo 1 n m (base n ++ jaulas restricciones)
              (planificar (base n ++ jaulas restricciones) ((λ k, nombre_celda k.1 k.2) <$> orden)) ∅)
    as (q & Hq & Hpq & _ & Hcov); [done| | |done|].
  - intros e v He Hv. apply Hcotas.
    apply elem_of_app in He as [He|He].
    + by apply (vars_base n e).
    + by apply (vars_jaulas n restricciones e).
  - pose proof (planificar_en (base n ++ jaulas restricciones) ((λ k, nombre_celda k.1 k.2) <$> orden)) as Hp.
    rewrite Forall_forall in Hp |- *. intros ve Hve. split; [|by apply Hp].
    unfold planificar in Hve. rewrite <- list_fmap_compose in Hve.
    apply list_elem_of_fmap in Hve as (k & -> & Hk). simpl.
    apply Hcotas. exists k. rewrite Forall_forall in Hin. auto.
  - unfold tableros_modelo. apply list_elem_of_fmap. exists q. split; [|done].
    unfold tablero_parcial, modelo_parcial. apply tablero_de_eq. intros f c Hf Hc.
    rewrite Hcov; [done|]. unfold planificar. rewrite <- !list_fmap_compose.
    apply list_elem_of_fmap. exists (f, c). split; [done|]. by apply Hall.
Qed.

(** ** Otro solucionador concreto: búsqueda con poda

    El mismo [dfs], sobre las constantes del problema y entre la menor cota
    inferior y la mayor cota superior que el problema les pone; de las
    asignaciones que devuelve se toma la primera que satisface todo. *)

Lemma minimo_le (l : list Z) x : x ∈ l → minimo l ≤ x.
Proof.
  destruct l as [|y l]; [set_solver|]. simpl.
  assert (foldr Z.min y l ≤ y) as Hy by (induction l; simpl; lia).
  intros [->|Hx]%elem_of_cons; [done|]. clear Hy.
  induction Hx; simpl; lia.
Qed.

Lemma maximo_ge (l : list Z) x : x ∈ l → x ≤ maximo l.
Proof.
  destruct l as [|y l]; [set_solver|]. simpl.
  assert (y ≤ foldr Z.max y l) as Hy by (induction l; simpl; lia).
  intros [->|Hx]%elem_of_cons; [done|]. clear Hy.
  induction Hx; simpl; lia.
Qed.

Lemma check_poda_sat A m : check_poda A = Some m → satisface m A.
Proof.
  unfold check_poda. intros Hm.
  apply bind_Some in Hm as (cs & _ & Hm).
  apply fmap_Some in Hm as (q & Hq & ->).
  apply head_Some_elem_of, list_elem_of_filter in Hq. tauto.
Qed.

Lemma cotas_de_modelo A (vs : list var) cs (m : modelo) :
  satisface m A → cotas_de A vs = Some cs →
  ∀ v, v ∈ vs → minimo cs.*1 ≤ m v ≤ maximo cs.*2.
Proof.
  intros Hm Hcs%mapM_Some_1 v Hv.
  apply list_elem_of_lookup in Hv as [i Hi].
  destruct (Forall2_lookup_l _ _ _ i v Hcs Hi) as ([lo hi] & Hc & Hb).
  apply bind_Some in Hb as (lo' & Hlo & Hb). apply bind_Some in Hb as (hi' & Hhi & [= -> ->]).
  assert (lo ≤ m v ≤ hi) as Hv.
  { unfold cota_inferior, cota_superior in *.
    apply head_Some_elem_of, list_elem_of_omap in Hlo as (e1 & He1 & H1).
    apply head_Some_elem_of, list_elem_of_omap in Hhi as (e2 & He2 & H2).
    destruct e1 as [w1 k1| | | |]; try done. case_decide; [|done]. injection H1 as ->. subst w1.
    destruct e2 as [|w2 k2| | |]; try done. case_decide; [|done]. injection H2 as ->. subst w2.
    pose proof (satisface_elem m A _ Hm He1). pose proof (satisface_elem m A _ Hm He2).
    simpl in *. lia. }
  assert (lo ∈ cs.*1) as H1.
  { apply list_elem_of_fmap. exists (lo, hi). split; [done|]. by eapply list_elem_of_lookup_2. }
  assert (hi ∈ cs.*2) as H2.
  { apply list_elem_of_fmap. exists (lo, hi). split; [done|]. by eapply list_elem_of_lookup_2. }
  apply minimo_le in H1. apply maximo_ge in H2. lia.
Qed.

Lemma check_poda_unsat A :
  dominio_finito A → check_poda A = None → ∀ m, ¬ satisface m A.
Proof.
  unfold check_poda. intros Hfin Hck m Hm.
  assert (∀ e v, e ∈ A → v ∈ vars_de e → v ∈ variables A) as Hvars.
  { intros e v He Hv. apply elem_of_remove_dups, list_elem_of_bind. eauto. }
  destruct (cotas_de A (variables A)) as [cs|] eqn:Hcs; simpl in Hck.
  - pose proof (cotas_de_modelo A _ cs m Hm Hcs) as Hb.
    destruct (dfs_completo (minimo cs.*1) (maximo cs.*2) m A (planificar A (variables A)) ∅)
      as (q & Hq & Hpq & _ & Hcov); [done|eauto| |done|].
    + pose proof (planificar_en A (variables A)) as Hp.
      rewrite Forall_forall in Hp |- *. intros ve Hve. split; [|by apply Hp].
      apply list_elem_of_fmap in Hve as (v & -> & Hv). by apply Hb.
    + apply fmap_None, head_None in Hck.
      assert (q ∈ filter (λ q, satisface (modelo_parcial q) A)
                     (dfs (minimo cs.*1) (maximo cs.*2) (planificar A (variables A)) ∅)) as Hin;
        [|rewrite Hck in Hin; set_solver].
      apply list_elem_of_filter. split; [|done].
      apply Forall_forall. intros e He.
      apply (interp_ext m); [|by apply (satisface_elem m A)].
      intros v Hv. unfold modelo_parcial. rewrite Hcov; [done|].
      unfold planificar. rewrite <- list_fmap_compose.
      apply list_elem_of_fmap. exists v. split; [done | eauto].
  - assert (is_Some (cotas_de A (variables A))) as [? ?]; [|congruence].
    apply mapM_is_Some_2, Forall_forall. intros v Hv. simpl.
    apply elem_of_remove_dups, list_elem_of_bind in Hv as (e & Hv & He).
    destruct (Hfin e v He Hv) as [[k1 H1] [k2 H2]].
    apply cota_inferior_Some in H1 as (lo & -> & _).
    apply cota_superior_Some in H2 as (hi & -> & _). by eexists.
Qed.

Definition con_poda : QF_FD :=
  {| check := check_poda;
     check_sat := check_poda_sat;
     check_unsat := check_poda_unsat |}.

(** * Lo que se imprime *)

Lemma impresas_modelo Z3 (fuel : nat) (restricciones : list jaula) (n : Z) (out : salida) t :
  resolver_sudoku_killer Z3 fuel restricciones n = Some (inr out) → t ∈ impresas out →
  ∃ m, t = tablero_de n m ∧ satisface m (base n ++ jaulas restricciones)
       ∧ 1 ≤ n ∧ Forall (jaula_en_tablero n) restricciones ∧ bloques_en_tablero n (Z.sqrt n).
Proof.
  intros (ms & Hn & Hj & Hb & _ & Hms & _ & ->)%resolver_spec Ht. simpl in Ht.
  apply list_elem_of_fmap in Ht as (m & -> & [i Hi]%list_elem_of_lookup).
  exists m. destruct (hallados_satisface Z3 n _ ms i m Hms Hi) as [Hsat _]. done.
Qed.

Lemma modelo_jaula (n : Z) (restricciones : list jaula) (m : modelo) (t : Z) (cs : list (Z * Z)) :
  satisface m (base n ++ jaulas restricciones) → Forall (jaula_en_tablero n) restricciones →
  (t, cs) ∈ restricciones →
  NoDup (jaula_de (tablero_de n m) cs) ∧ suma (jaula_de (tablero_de n m) cs) = t.
Proof.
  intros [_ Hm]%satisface_app Hj Hin.
  rewrite Forall_forall in Hj. specialize (Hj _ Hin).
  rewrite (jaula_de_tablero n m cs) by done.
  destruct (jaula_en_jaulas restricciones t cs Hin) as [H1 H2].
  split; [apply (satisface_elem m _ _ Hm H2) | apply (satisface_elem m _ _ Hm H1)].
Qed.

Lemma modelo_fila (n : Z) (m : modelo) A (f v : Z) :
  satisface m (base n ++ A) → 0 ≤ f < n → 1 ≤ v ≤ n →
  veces v (fila_de (tablero_de n m) f) = 1%nat ∧ veces v (columna_de n (tablero_de n m) f) = 1%nat.
Proof.
  intros Hm Hf Hv. rewrite fila_de_tablero, columna_de_tablero by done.
  destruct (fila_en_base n f Hf) as [H1 H2].
  pose proof Hm as [Hbase _]%satisface_app.
  split; apply (distintos_todos n); try done.
  - apply (satisface_elem m _ _ Hbase H1).
  - unfold fila_vars, range. rewrite !length_fmap, length_seqZ. lia.
  - apply Forall_forall. intros x (w & -> & (c & -> & Hc%elem_of_range)%list_elem_of_fmap)%list_elem_of_fmap.
    by apply (satisface_cotas n m A).
  - apply (satisface_elem m _ _ Hbase H2).
  - unfold columna_vars, range. rewrite !length_fmap, length_seqZ. lia.
  - apply Forall_forall. intros x (w & -> & (c & -> & Hc%elem_of_range)%list_elem_of_fmap)%list_elem_of_fmap.
    by apply (satisface_cotas n m A).
Qed.

Lemma length_claves_bloque (s fi ci : Z) : 0 ≤ s → Z.of_nat (length (claves_bloque s fi ci)) = s * s.
Proof.
  intros Hs. unfold claves_bloque, range.
  assert (∀ l : list Z, length (r ← l; c ← seqZ 0 s; [(fi + r, ci + c)]) = (length l * Z.to_nat s)%nat) as H.
  { induction l as [|r l IH]; csimpl; [done|]. rewrite length_app, IH. f_equal.
    generalize (seqZ 0 s) (length_seqZ 0 s). intros l' <-.
    induction l' as [|c l' IH']; csimpl; [done | by rewrite IH']. }
  rewrite H, length_seqZ. lia.
Qed.

Lemma inicios_cuadrado (s i : Z) : 0 ≤ i < s → i * s ∈ inicios (s * s) s.
Proof.
  intros Hi. unfold inicios. apply list_elem_of_fmap. exists i. split; [done|].
  apply elem_of_seqZ. assert ((s * s + s - 1) `div` s = s) as ->; [|lia].
  symmetry. apply (Z.div_unique_pos _ s s (s - 1)); lia.
Qed.

Lemma modelo_bloque (n : Z) (m : modelo) A (bf bc v : Z) :
  satisface m (base n ++ A) → bloques_en_tablero n (Z.sqrt n) →
  Z.sqrt n * Z.sqrt n = n → 0 ≤ bf < Z.sqrt n → 0 ≤ bc < Z.sqrt n → 1 ≤ v ≤ n →
  veces v (bloque_de (Z.sqrt n) (tablero_de n m) (bf * Z.sqrt n) (bc * Z.sqrt n)) = 1%nat.
Proof.
  intros Hm Hb Hsq Hbf Hbc Hv.
  pose proof (inicios_cuadrado (Z.sqrt n) bf Hbf) as Hfi.
  pose proof (inicios_cuadrado (Z.sqrt n) bc Hbc) as Hci.
  rewrite Hsq in Hfi, Hci.
  assert (Forall (en_tablero n) (claves_bloque (Z.sqrt n) (bf * Z.sqrt n) (bc * Z.sqrt n))) as Hen.
  { unfold bloques_en_tablero in Hb. rewrite Forall_forall in Hb.
    specialize (Hb _ Hfi). rewrite Forall_forall in Hb. by apply Hb. }
  rewrite (bloque_de_tablero n) by done.
  pose proof Hm as [Hbase _]%satisface_app.
  apply (distintos_todos n); try done.
  - apply (satisface_elem m _ _ Hbase (bloque_en_base n _ _ Hfi Hci)).
  - unfold bloque_vars. rewrite !length_fmap, length_claves_bloque; lia.
  - apply Forall_forall. intros x (w & -> & (k & -> & Hk)%list_elem_of_fmap)%list_elem_of_fmap.
    rewrite Forall_forall in Hen. destruct (Hen k Hk). by apply (satisface_cotas n m A).
Qed.

Lemma clausula_tablero (n : Z) (m : modelo) : clausula n m = clausula_de n (tablero_de n m).
Proof.
  unfold clausula, clausula_de. f_equal. apply list_fmap_ext.
  intros _ [f c] [Hf Hc]%list_elem_of_lookup_2%elem_of_claves. simpl in *.
  by rewrite valor_tablero_de.
Qed.

Lemma jaulas_quitar (restr1 restr2 : list jaula) (j : jaula) e :
  e ∈ jaulas (restr1 ++ restr2) → e ∈ jaulas (restr1 ++ j :: restr2).
Proof.
  unfold jaulas. rewrite !list_elem_of_bind. intros (j' & He & Hj').
  exists j'. split; [done|]. set_solver.
Qed.

Lemma monotonia Z3 (fuel fuel' : nat) (restr1 restr2 : list jaula) (j : jaula) (n : Z) out out' :
  resolver_sudoku_killer Z3 fuel (restr1 ++ j :: restr2) n = Some (inr out) →
  resolver_sudoku_killer Z3 fuel' (restr1 ++ restr2) n = Some (inr out') →
  soluciones_encontradas out ≤ soluciones_encontradas out'.
Proof.
  intros (ms & Hn & Hj & Hb & _ & Hms & _ & ->)%resolver_spec.
  intros (ms' & _ & Hj' & _ & _ & Hms' & Hck' & ->)%resolver_spec. simpl.
  apply inj_le. rewrite <- (length_fmap (tablero_de n) ms), <- (length_fmap (tablero_de n) ms').
  apply submseteq_length, NoDup_submseteq; [by eapply hallados_NoDup|].
  intros t (m & -> & [i Hi]%list_elem_of_lookup)%list_elem_of_fmap.
  apply (enumeracion_completa Z3 n (restr1 ++ restr2)); try done.
  destruct (hallados_satisface Z3 n _ ms i m Hms Hi) as [[H1 H2]%satisface_app _].
  apply satisface_app. split; [done|].
  apply Forall_forall. intros e He. by apply (satisface_elem m _ _ H2), jaulas_quitar.
Qed.

(** * Corridas concretas con los dos solucionadores *)

(** Tablero 1x1 sin jaulas. *)
Definition salida_1x1 : salida :=
  Eval vm_compute in salida_de_corrida (resolver_sudoku_killer exhaustivo 2 [] 1).

(** Tablero 4x4 con cuatro jaulas: tres soluciones. *)
Definition jaulas_4x4 : list jaula :=
  [(3, [(1, 1); (1, 2)]); (5, [(2, 1); (3, 1)]); (6, [(2, 4); (3, 4); (4, 4)]); (2, [(4, 3)])].

Definition salida_4x4 : salida :=
  Eval vm_compute in salida_de_corrida (resolver_sudoku_killer con_poda 4 jaulas_4x4 4).

Definition tablero_4x4 : tablero :=
  [[1; 2; 3; 4]; [3; 4; 1; 2]; [2; 1; 4; 3]; [4; 3; 2; 1]].

(** El tablero 2x2 sin jaulas, con cada uno de los dos solucionadores. *)
Definition salida_2x2_exhaustivo : salida :=
  Eval vm_compute in salida_de_corrida (resolver_sudoku_killer exhaustivo 3 [] 2).

Definition salida_2x2_poda : salida :=
  Eval vm_compute in salida_de_corrida (resolver_sudoku_killer con_poda 3 [] 2).

(** Las jaulas del tablero 4x4 en otro orden y con una repetida. *)
Definition jaulas_4x4_otro_orden : list jaula :=
  [(2, [(4, 3)]); (6, [(2, 4); (3, 4); (4, 4)]); (5, [(2, 1); (3, 1)]);
   (3, [(1, 1); (1, 2)]); (2, [(4, 3)])].

Definition salida_4x4_otro_orden : salida :=
  Eval vm_compute in
    salida_de_corrida (resolver_sudoku_killer con_poda 4 jaulas_4x4_otro_orden 4).

(** Lo que escribe la corrida del tablero 4x4. *)
Definition stdout_4x4 : list string :=
  Eval vm_compute in
    match resolver_sudoku_killer_stdout con_poda 4 jaulas_4x4 4 with
    | Some (_, stdout) => stdout
    | None => []
    end.

Lemma corrida_1x1 : resolver_sudoku_killer exhaustivo 2 [] 1 = Some (inr salida_1x1).
Proof. vm_compute. reflexivity. Defined.

Lemma corrida_4x4 : resolver_sudoku_killer con_poda 4 jaulas_4x4 4 = Some (inr salida_4x4).
Proof. vm_compute. reflexivity. Defined.

Lemma corrida_2x2_exhaustivo :
  resolver_sudoku_killer exhaustivo 3 [] 2 = Some (inr salida_2x2_exhaustivo).
Proof. vm_compute. reflexivity. Defined.

Lemma corrida_2x2_poda : resolver_sudoku_killer con_poda 3 [] 2 = Some (inr salida_2x2_poda).
Proof. vm_compute. reflexivity. Defined.

Lemma corrida_4x4_otro_orden :
  resolver_sudoku_killer con_poda 4 jaulas_4x4_otro_orden 4 = Some (inr salida_4x4_otro_orden).
Proof. vm_compute. reflexivity. Defined.

(** * Las propiedades *)

(** C1 (enmendada): el conjunto de aserciones sí cambia durante la búsqueda.
    Las aserciones construidas antes del bucle se conservan, intactas y en el
    mismo orden, y cada solución impresa añade detrás exactamente una cláusula
    de bloqueo: la disyunción, sobre todas las celdas, de "esta celda es
    distinta del valor impreso". *)
Theorem C1_bloqueo_por_solucion Z3 (fuel : nat) (restricciones : list jaula) (n : Z) (out : salida) :
  resolver_sudoku_killer Z3 fuel restricciones n = Some (inr out) →
  ∃ T A0, construir restricciones n = inr (T, A0)
          ∧ solucionador_final out = A0 ++ (clausula_de n <$> impresas out).
Proof.
  intros (ms & _ & _ & _ & Hc & _ & _ & ->)%resolver_spec.
  eexists _, _. split; [exact Hc|]. simpl. f_equal.
  rewrite <- list_fmap_compose. apply list_fmap_ext. intros. apply clausula_tablero.
Qed.

Lemma C1_bloqueo_por_solucion_witness :
  resolver_sudoku_killer con_poda 4 jaulas_4x4 4 = Some (inr salida_4x4)
  ∧ ∃ T A0, construir jaulas_4x4 4 = inr (T, A0)
            ∧ solucionador_final salida_4x4 = A0 ++ (clausula_de 4 <$> impresas salida_4x4).
Proof.
  split; [exact corrida_4x4|].
  exact (C1_bloqueo_por_solucion con_poda 4 jaulas_4x4 4 salida_4x4 corrida_4x4).
Defined.

(** C1, tal como está escrita, es falsa: en el tablero 1x1 sin jaulas se
    imprime la única solución y después el solucionador tiene una aserción
    más que al empezar la búsqueda, la cláusula que bloquea esa solución. *)
Lemma C1_contraejemplo :
  ∃ out T A0,
    resolver_sudoku_killer exhaustivo 2 [] 1 = Some (inr out)
    ∧ construir [] 1 = inr (T, A0)
    ∧ impresas out = [[[1]]]
    ∧ solucionador_final out = A0 ++ [OrNeq [((1, 1), 1)]]
    ∧ solucionador_final out ≠ A0.
Proof.
  eexists _, _, _.
  split; [exact corrida_1x1|].
  split; [vm_compute; reflexivity|].
  split; [reflexivity|].
  split; [reflexivity|].
  vm_compute. discriminate.
Qed.

(** C2: ninguna asignación se imprime dos veces; dos soluciones impresas en
    posiciones distintas difieren en el valor de al menos una celda. *)
Theorem C2_sin_repeticion Z3 (fuel : nat) (restricciones : list jaula) (n : Z) (out : salida)
    (i j : nat) (t1 t2 : tablero) :
  resolver_sudoku_killer Z3 fuel restricciones n = Some (inr out) →
  i ≠ j → impresas out !! i = Some t1 → impresas out !! j = Some t2 →
  ∃ f c, 0 ≤ f < n ∧ 0 ≤ c < n ∧ valor t1 f c ≠ valor t2 f c.
Proof.
  intros (ms & _ & _ & _ & _ & Hms & _ & ->)%resolver_spec Hij. simpl.
  rewrite !list_lookup_fmap. intros Hi Hj.
  destruct (ms !! i) as [mi|] eqn:Hmi; [|done].
  destruct (ms !! j) as [mj|] eqn:Hmj; [|done].
  simpl in *. injection Hi as <-. injection Hj as <-.
  destruct (Nat.lt_trichotomy i j) as [Hlt|[->|Hlt]]; [|done|].
  - destruct (hallados_distintos Z3 n _ ms i j mi mj Hms Hlt Hmi Hmj) as (f & c & Hf & Hc & Hne).
    exists f, c. rewrite !valor_tablero_de by done. auto.
  - destruct (hallados_distintos Z3 n _ ms j i mj mi Hms Hlt Hmj Hmi) as (f & c & Hf & Hc & Hne).
    exists f, c. rewrite !valor_tablero_de by done. auto.
Qed.

Lemma C2_sin_repeticion_witness :
  resolver_sudoku_killer con_poda 4 jaulas_4x4 4 = Some (inr salida_4x4)
  ∧ (1 ≠ 2)%nat
  ∧ impresas salida_4x4 !! 1%nat = Some tablero_4x4
  ∧ impresas salida_4x4 !! 2%nat = Some [[1; 2; 3; 4]; [3; 4; 1; 2]; [2; 3; 4; 1]; [4; 1; 2; 3]]
  ∧ ∃ f c, 0 ≤ f < 4 ∧ 0 ≤ c < 4
           ∧ valor tablero_4x4 f c
             ≠ valor [[1; 2; 3; 4]; [3; 4; 1; 2]; [2; 3; 4; 1]; [4; 1; 2; 3]] f c.
Proof.
  assert (1 ≠ 2)%nat as H by lia.
  split; [exact corrida_4x4|]. split; [exact H|]. split; [reflexivity|]. split; [reflexivity|].
  exact (C2_sin_repeticion con_poda 4 jaulas_4x4 4 salida_4x4 1 2 _ _ corrida_4x4 H eq_refl eq_refl).
Defined.

(** C3: en toda asignación impresa para un tablero [n x n], cada fila y cada
    columna contiene cada valor de [1..n] exactamente una vez, y también cada
    subcuadrícula de [sqrt(n) x sqrt(n)] (cuando [n] es un cuadrado perfecto,
    que es cuando tales subcuadrículas existen). *)
Theorem C3_filas_columnas_bloques Z3 (fuel : nat) (restricciones : list jaula) (n : Z)
    (out : salida) (t : tablero) :
  resolver_sudoku_killer Z3 fuel restricciones n = Some (inr out) → t ∈ impresas out →
  (∀ f v, 0 ≤ f < n → 1 ≤ v ≤ n → veces v (fila_de t f) = 1%nat)
  ∧ (∀ c v, 0 ≤ c < n → 1 ≤ v ≤ n → veces v (columna_de n t c) = 1%nat)
  ∧ (Z.sqrt n * Z.sqrt n = n →
     ∀ bf bc v, 0 ≤ bf < Z.sqrt n → 0 ≤ bc < Z.sqrt n → 1 ≤ v ≤ n →
       veces v (bloque_de (Z.sqrt n) t (bf * Z.sqrt n) (bc * Z.sqrt n)) = 1%nat).
Proof.
  intros Hr Ht.
  destruct (impresas_modelo Z3 fuel restricciones n out t Hr Ht) as (m & -> & Hm & Hn & Hj & Hb).
  split; [|split].
  - intros f v Hf Hv. by apply (modelo_fila n m (jaulas restricciones)).
  - intros c v Hc Hv. by apply (modelo_fila n m (jaulas restricciones)).
  - intros Hsq bf bc v Hbf Hbc Hv. by apply (modelo_bloque n m (jaulas restricciones)).
Qed.

Lemma C3_filas_columnas_bloques_witness :
  resolver_sudoku_killer con_poda 4 jaulas_4x4 4 = Some (inr salida_4x4)
  ∧ tablero_4x4 ∈ impresas salida_4x4
  ∧ (∀ f v, 0 ≤ f < 4 → 1 ≤ v ≤ 4 → veces v (fila_de tablero_4x4 f) = 1%nat)
  ∧ (∀ c v, 0 ≤ c < 4 → 1 ≤ v ≤ 4 → veces v (columna_de 4 tablero_4x4 c) = 1%nat)
  ∧ (Z.sqrt 4 * Z.sqrt 4 = 4 →
     ∀ bf bc v, 0 ≤ bf < Z.sqrt 4 → 0 ≤ bc < Z.sqrt 4 → 1 ≤ v ≤ 4 →
       veces v (bloque_de (Z.sqrt 4) tablero_4x4 (bf * Z.sqrt 4) (bc * Z.sqrt 4)) = 1%nat).
Proof.
  split; [exact corrida_4x4|].
  assert (tablero_4x4 ∈ impresas salida_4x4) as H by (right; left).
  split; [exact H|].
  exact (C3_filas_columnas_bloques con_poda 4 jaulas_4x4 4 salida_4x4 _ corrida_4x4 H).
Defined.

(** C4: en toda asignación impresa, los valores de las celdas de cada jaula
    de la entrada son distintos dos a dos y suman exactamente el objetivo de
    la jaula. *)
Theorem C4_jaulas Z3 (fuel : nat) (restricciones : list jaula) (n : Z) (out : salida)
    (t : tablero) (suma_objetivo : Z) (celdas_grupo : list (Z * Z)) :
  resolver_sudoku_killer Z3 fuel restricciones n = Some (inr out) → t ∈ impresas out →
  (suma_objetivo, celdas_grupo) ∈ restricciones →
  NoDup (jaula_de t celdas_grupo) ∧ suma (jaula_de t celdas_grupo) = suma_objetivo.
Proof.
  intros Hr Ht Hin.
  destruct (impresas_modelo Z3 fuel restricciones n out t Hr Ht) as (m & -> & Hm & Hn & Hj & Hb).
  by apply (modelo_jaula n restricciones).
Qed.

Lemma C4_jaulas_witness :
  resolver_sudoku_killer con_poda 4 jaulas_4x4 4 = Some (inr salida_4x4)
  ∧ tablero_4x4 ∈ impresas salida_4x4
  ∧ (6, [(2, 4); (3, 4); (4, 4)]) ∈ jaulas_4x4
  ∧ NoDup (jaula_de tablero_4x4 [(2, 4); (3, 4); (4, 4)])
  ∧ suma (jaula_de tablero_4x4 [(2, 4); (3, 4); (4, 4)]) = 6.
Proof.
  split; [exact corrida_4x4|].
  assert (tablero_4x4 ∈ impresas salida_4x4) as H by (right; left).
  assert ((6, [(2, 4); (3, 4); (4, 4)]) ∈ jaulas_4x4) as Hj by (right; right; left).
  split; [exact H|]. split; [exact Hj|].
  exact (C4_jaulas con_poda 4 jaulas_4x4 4 salida_4x4 _ 6 _ corrida_4x4 H Hj).
Defined.

Lemma resolver_inl Z3 (fuel : nat) (restricciones : list jaula) (n : Z) e :
  resolver_sudoku_killer Z3 fuel restricciones n = Some (inl e) →
  construir restricciones n = inl e.
Proof.
  unfold resolver_sudoku_killer.
  destruct (construir restricciones n) as [e'|[T A]] eqn:Hc; [congruence|].
  apply construir_inr in Hc as (Hn & -> & -> & Hj & Hb). intros H.
  destruct (bucle_spec Z3 n (base n ++ jaulas restricciones) fuel [] (inl e)) as (ms & _ & _ & ?);
    [|simpl; by rewrite app_nil_r|done].
  intros i m Hi. by rewrite lookup_nil in Hi.
Qed.

Lemma cuenta_no_negativa Z3 (fuel : nat) (restricciones : list jaula) (n : Z) r :
  resolver_sudoku_killer Z3 fuel restricciones n = Some r → 0 ≤ cuenta r.
Proof.
  destruct r as [e|out]; simpl; [done|].
  intros (ms & _ & _ & _ & _ & _ & _ & ->)%resolver_spec. simpl. lia.
Qed.

Lemma suma_positiva (l : list Z) : l ≠ [] → Forall (λ x, 1 ≤ x) l → 1 ≤ suma l.
Proof.
  intros Hne Hl. destruct Hl as [|x l Hx Hl]; [done|]. simpl.
  assert (0 ≤ suma l); [|lia]. clear Hne. induction Hl; simpl; lia.
Qed.

(** C5: el bucle termina (con combustible [combustible n] basta, sea cual sea
    el solucionador): la corrida da un resultado.  Si la construcción de las
    restricciones falla, ese resultado es su excepción; si no, el programa
    acaba normalmente y ha impreso el tablero de todo modelo de las aserciones
    de la instancia. *)
Theorem C5_termina_y_enumera_todo Z3 (fuel : nat) (restricciones : list jaula) (n : Z) :
  (combustible n ≤ fuel)%nat →
  ∃ r, resolver_sudoku_killer Z3 fuel restricciones n = Some r
       ∧ match construir restricciones n with
         | inl e => r = inl e
         | inr (T, A0) =>
             ∃ out, r = inr out ∧ ∀ m, satisface m A0 → tablero_de n m ∈ impresas out
         end.
Proof.
  intros Hfuel. destruct (resolver_termina Z3 fuel restricciones n Hfuel) as [r Hr].
  exists r. split; [done|].
  destruct r as [e|out].
  - apply resolver_inl in Hr. by rewrite Hr.
  - apply resolver_spec in Hr as (ms & Hn & Hj & Hb & -> & Hms & Hck & ->).
    exists (salida_de n (base n ++ jaulas restricciones) ms). split; [done|].
    intros m Hm. simpl. by apply (enumeracion_completa Z3 n restricciones).
Qed.

Lemma C5_termina_y_enumera_todo_witness :
  (combustible 2 ≤ 17)%nat
  ∧ ∃ r, resolver_sudoku_killer exhaustivo 17 [(3, [(1, 1); (1, 2)]); (1, [(2, 2)])] 2 = Some r
         ∧ match construir [(3, [(1, 1); (1, 2)]); (1, [(2, 2)])] 2 with
           | inl e => r = inl e
           | inr (T, A0) =>
               ∃ out, r = inr out ∧ ∀ m, satisface m A0 → tablero_de 2 m ∈ impresas out
           end.
Proof.
  assert (combustible 2 ≤ 17)%nat as H by (vm_compute; lia).
  split; [exact H|].
  exact (C5_termina_y_enumera_todo exhaustivo 17 [(3, [(1, 1); (1, 2)]); (1, [(2, 2)])] 2 H).
Defined.

(** C6: si la entrada contiene una jaula de objetivo 0 sobre una o más
    celdas, no se imprime ninguna solución: el programa termina a la primera
    llamada a [check] (o antes, con una excepción) con cero soluciones. *)
Theorem C6_jaula_cero Z3 (fuel : nat) (restricciones : list jaula) (n : Z)
    (celdas_grupo : list (Z * Z)) :
  (0, celdas_grupo) ∈ restricciones → celdas_grupo ≠ [] →
  ∃ r, resolver_sudoku_killer Z3 (S fuel) restricciones n = Some r
       ∧ cuenta r = 0
       ∧ ∀ out, r = inr out → impresas out = [].
Proof.
  intros Hin Hne. unfold resolver_sudoku_killer.
  destruct (construir restricciones n) as [e|[T A]] eqn:Hc.
  { exists (inl e). repeat split; done. }
  apply construir_inr in Hc as (Hn & -> & -> & Hj & Hb). simpl.
  destruct (check Z3 _) as [m|] eqn:Hck.
  - exfalso. apply check_sat in Hck.
    destruct (modelo_jaula n restricciones m 0 celdas_grupo Hck Hj Hin) as [_ Hsum].
    assert (1 ≤ suma (jaula_de (tablero_de n m) celdas_grupo)); [|lia].
    rewrite Forall_forall in Hj. specialize (Hj _ Hin).
    apply suma_positiva.
    + unfold jaula_de. by destruct celdas_grupo.
    + rewrite (jaula_de_tablero n m) by done. unfold jaula_vars.
      apply Forall_forall. intros x (w & -> & (k & -> & Hk)%list_elem_of_fmap)%list_elem_of_fmap.
      unfold jaula_en_tablero in Hj. rewrite Forall_forall in Hj. destruct (Hj k Hk).
      by apply (satisface_cotas n m (jaulas restricciones)).
  - eexists. split; [done|]. split; [done|]. by intros out [= <-].
Qed.

Lemma C6_jaula_cero_witness :
  (0, [(1, 1); (2, 2)]) ∈ [(3, [(1, 2); (2, 2)]); (0, [(1, 1); (2, 2)])]
  ∧ [(1, 1); (2, 2)] ≠ []
  ∧ ∃ r, resolver_sudoku_killer exhaustivo 1 [(3, [(1, 2); (2, 2)]); (0, [(1, 1); (2, 2)])] 2 = Some r
         ∧ cuenta r = 0
         ∧ ∀ out, r = inr out → impresas out = [].
Proof.
  assert ((0, [(1, 1); (2, 2)]) ∈ [(3, [(1, 2); (2, 2)]); (0, [(1, 1); (2, 2)])]) as H
    by (right; left).
  assert ([(1, 1); (2, 2)] ≠ ([] : list (Z * Z))) as Hne by discriminate.
  split; [exact H|]. split; [exact Hne|].
  exact (C6_jaula_cero exhaustivo 0 _ 2 _ H Hne).
Defined.

(** C7: quitar una jaula cualquiera de la entrada nunca disminuye el número
    de soluciones que el programa cuenta. *)
Theorem C7_monotonia Z3 (fuel fuel' : nat) (restr1 restr2 : list jaula) (j : jaula) (n : Z) :
  (combustible n ≤ fuel)%nat → (combustible n ≤ fuel')%nat →
  ∃ r r', resolver_sudoku_killer Z3 fuel (restr1 ++ j :: restr2) n = Some r
          ∧ resolver_sudoku_killer Z3 fuel' (restr1 ++ restr2) n = Some r'
          ∧ cuenta r ≤ cuenta r'.
Proof.
  intros Hf Hf'.
  destruct (resolver_termina Z3 fuel (restr1 ++ j :: restr2) n Hf) as [r Hr].
  destruct (resolver_termina Z3 fuel' (restr1 ++ restr2) n Hf') as [r' Hr'].
  exists r, r'. split; [done|]. split; [done|].
  destruct r as [e|out]; [by apply (cuenta_no_negativa Z3 fuel' (restr1 ++ restr2) n)|].
  destruct r' as [e'|out']; [|by apply (monotonia Z3 fuel fuel' restr1 restr2 j n)].
  exfalso. apply resolver_inl in Hr'.
  apply resolver_spec in Hr as (ms & _ & _ & _ & Hc & _).
  apply construir_inr_buenas in Hc as (Hn & Hb & Hj).
  rewrite (construir_ok (restr1 ++ restr2) n Hn Hb) in Hr'; [done|].
  rewrite Forall_app in Hj |- *. destruct Hj as [H1 H2]. split; [done|].
  by apply Forall_cons in H2 as [_ H2].
Qed.

Lemma C7_monotonia_witness :
  (combustible 2 ≤ 17)%nat ∧ (combustible 2 ≤ 20)%nat
  ∧ ∃ r r', resolver_sudoku_killer exhaustivo 17 ([(3, [(1, 1); (1, 2)])] ++ (1, [(2, 2)]) :: []) 2 = Some r
          ∧ resolver_sudoku_killer exhaustivo 20 ([(3, [(1, 1); (1, 2)])] ++ []) 2 = Some r'
          ∧ cuenta r ≤ cuenta r'.
Proof.
  assert (combustible 2 ≤ 17)%nat as H by (vm_compute; lia).
  assert (combustible 2 ≤ 20)%nat as H' by (vm_compute; lia).
  split; [exact H|]. split; [exact H'|].
  exact (C7_monotonia exhaustivo 17 20 [(3, [(1, 1); (1, 2)])] [] (1, [(2, 2)]) 2 H H').
Defined.

(** C9 (enmendada): para [n >= 1], si una jaula de la entrada nombra una
    celda fuera del tablero [n x n] y ninguna jaula anterior de la lista está
    vacía, el programa falla durante la construcción de las restricciones,
    antes de cualquier llamada a [check], con un [KeyError] cuya clave no está
    en el diccionario de variables. *)
Theorem C9_celda_fuera_del_tablero Z3 (fuel : nat) (pre post : list jaula) (n : Z)
    (suma_objetivo : Z) (celdas_grupo : list (Z * Z)) (fila columna : Z) :
  1 ≤ n → Forall (λ j : jaula, j.2 ≠ []) pre →
  (fila, columna) ∈ celdas_grupo → ¬ (1 ≤ fila ≤ n ∧ 1 ≤ columna ≤ n) →
  ∃ k, (crear_variables n).1 !! k = None
       ∧ construir (pre ++ (suma_objetivo, celdas_grupo) :: post) n = inl (KeyError k)
       ∧ resolver_sudoku_killer Z3 fuel (pre ++ (suma_objetivo, celdas_grupo) :: post) n
         = Some (inl (KeyError k)).
Proof.
  intros Hn Hpre Hk Hfuera.
  destruct (construir_fuera pre post (suma_objetivo, celdas_grupo) n Hn Hpre) as (k & Hk' & Hc).
  - unfold jaula_en_tablero. rewrite Forall_forall. intros Hj.
    destruct (Hj _ Hk) as [H1 H2]. simpl in *. lia.
  - exists k. split; [|split; [done|]].
    + rewrite crear_variables_tabla. by rewrite decide_False.
    + unfold resolver_sudoku_killer. by rewrite Hc.
Qed.

Lemma C9_celda_fuera_del_tablero_witness :
  1 ≤ 9 ∧ Forall (λ j : jaula, j.2 ≠ []) restricciones_sudoku
  ∧ (9, 10) ∈ [(9, 9); (9, 10)]
  ∧ ¬ (1 ≤ 9 ≤ 9 ∧ 1 ≤ 10 ≤ 9)
  ∧ ∃ k, (crear_variables 9).1 !! k = None
         ∧ construir (restricciones_sudoku ++ (5, [(9, 9); (9, 10)]) :: []) 9 = inl (KeyError k)
         ∧ resolver_sudoku_killer exhaustivo 0 (restricciones_sudoku ++ (5, [(9, 9); (9, 10)]) :: []) 9
           = Some (inl (KeyError k)).
Proof.
  assert (1 ≤ 9) as Hn by lia.
  assert (Forall (λ j : jaula, j.2 ≠ []) restricciones_sudoku) as Hpre
    by (unfold restricciones_sudoku; repeat (constructor; [discriminate|]); constructor).
  assert ((9, 10) ∈ [(9, 9); (9, 10)]) as Hk by (right; left).
  assert (¬ (1 ≤ 9 ≤ 9 ∧ 1 ≤ 10 ≤ 9)) as Hf by lia.
  split; [exact Hn|]. split; [exact Hpre|]. split; [exact Hk|]. split; [exact Hf|].
  exact (C9_celda_fuera_del_tablero exhaustivo 0 restricciones_sudoku [] 9 5 _ 9 10 Hn Hpre Hk Hf).
Defined.

(** C9, tal como está escrita, es falsa en dos casos.  Para la dimensión 0
    toda celda queda fuera del tablero, pero la excepción que aparece es el
    [ValueError] de [range(0, 0, 0)].  Y si antes de la jaula que se sale del
    tablero hay una jaula vacía, la excepción es la [Z3Exception] de
    [Distinct] sin argumentos en esa jaula, y no se llega a consultar la
    celda de fuera.  Ninguna de las dos es un error de variable desconocida. *)
Lemma C9_contraejemplo :
  ((5, [(1, 1)]) ∈ [(5, [(1, 1)])]
   ∧ (crear_variables 0).1 !! (1 - 1, 1 - 1) = None
   ∧ (∀ fuel, resolver_sudoku_killer exhaustivo fuel [(5, [(1, 1)])] 0 = Some (inl ValueError))
   ∧ ∀ k, ValueError ≠ KeyError k)
  ∧ ((5, [(9, 10)]) ∈ [(0, []); (5, [(9, 10)])]
     ∧ (crear_variables 9).1 !! (9 - 1, 10 - 1) = None
     ∧ (∀ fuel, resolver_sudoku_killer exhaustivo fuel [(0, []); (5, [(9, 10)])] 9
                = Some (inl Z3Exception))
     ∧ ∀ k, Z3Exception ≠ KeyError k).
Proof.
  split.
  - split; [left|]. split; [reflexivity|]. split; [|discriminate].
    intros fuel. reflexivity.
  - split; [right; left|]. split; [vm_compute; reflexivity|]. split; [|discriminate].
    intros fuel. unfold resolver_sudoku_killer.
    assert (construir [(0, []); (5, [(9, 10)])] 9 = inl Z3Exception) as ->
      by (vm_compute; reflexivity).
    reflexivity.
Qed.

(** C10 (enmendada): para [n >= 1] tal que [int(n ** 0.5)] divide a [n], y
    jaulas cuyas coordenadas están todas en [1..n] x [1..n], todas las
    consultas al diccionario de variables encuentran su clave: la
    construcción no puede fallar con [KeyError].  Si además ninguna jaula
    está vacía, la construcción es total y el programa llega al bucle con el
    diccionario y las aserciones construidos; si alguna lo está, falla con la
    [Z3Exception] de [Distinct] sin argumentos. *)
Theorem C10_construccion_total (restricciones : list jaula) (n : Z) :
  1 ≤ n → (Z.sqrt n | n) →
  Forall (λ j : jaula, Forall (λ k, 1 ≤ k.1 ≤ n ∧ 1 ≤ k.2 ≤ n) j.2) restricciones →
  raiz_entera n = inr (Z.sqrt n)
  ∧ (∀ k, construir restricciones n ≠ inl (KeyError k))
  ∧ (Forall (λ j : jaula, j.2 ≠ []) restricciones →
     construir restricciones n = inr ((crear_variables n).1, base n ++ jaulas restricciones))
  ∧ (¬ Forall (λ j : jaula, j.2 ≠ []) restricciones →
     construir restricciones n = inl Z3Exception).
Proof.
  intros Hn Hdiv Hj.
  assert (Forall (jaula_en_tablero n) restricciones) as Hen.
  { eapply Forall_impl; [exact Hj|]. intros [t cs] Hcs. unfold jaula_en_tablero.
    eapply Forall_impl; [exact Hcs|]. intros [f c] [H1 H2]. unfold en_tablero. simpl in *. lia. }
  pose proof (bloques_en_tablero_divide n Hn Hdiv) as Hb.
  assert (Forall (λ j : jaula, j.2 ≠ []) restricciones →
          construir restricciones n = inr ((crear_variables n).1, base n ++ jaulas restricciones))
    as Hok.
  { intros Hne. apply construir_ok; [done..|].
    rewrite Forall_forall in Hen, Hne |- *. intros j Hin. split; auto. }
  assert (¬ Forall (λ j : jaula, j.2 ≠ []) restricciones →
          construir restricciones n = inl Z3Exception) as Hvacia.
  { intros Hno.
    destruct (construir_falla restricciones n Hn) as [(k & Hk & Hc)|[Hc _]]; [| |done].
    - intros [_ Hbuenas]. apply Hno. eapply Forall_impl; [exact Hbuenas|]. by intros j [_ ?].
    - exfalso. rewrite (construir_app [] restricciones n : construir restricciones n = _) in Hc.
      destruct (construir_sin_jaulas n Hn) as [Hbase _]. rewrite (Hbase Hb) in Hc. simpl in Hc.
      destruct (primera_mala n restricciones) as (pre & j & post & -> & Hpre & Hmala).
      { intros Hbuenas. apply Hno. eapply Forall_impl; [exact Hbuenas|]. by intros j [_ ?]. }
      destruct (para_jaulas_primera_mala n pre post j (base n) Hpre Hmala)
        as [(Hfuera & _)|[_ Hz]].
      + apply Hfuera. rewrite Forall_forall in Hen. apply Hen. set_solver.
      + by rewrite Hz in Hc. }
  split.
  { unfold raiz_entera. rewrite decide_False; [done | lia]. }
  split; [|by split].
  intros k Hc. destruct (decide (Forall (λ j : jaula, j.2 ≠ []) restricciones)) as [Hne|Hne].
  - by rewrite (Hok Hne) in Hc.
  - by rewrite (Hvacia Hne) in Hc.
Qed.

Lemma C10_construccion_total_witness :
  1 ≤ 9 ∧ (Z.sqrt 9 | 9)
  ∧ Forall (λ j : jaula, Forall (λ k, 1 ≤ k.1 ≤ 9 ∧ 1 ≤ k.2 ≤ 9) j.2) restricciones_sudoku
  ∧ raiz_entera 9 = inr (Z.sqrt 9)
  ∧ (∀ k, construir restricciones_sudoku 9 ≠ inl (KeyError k))
  ∧ (Forall (λ j : jaula, j.2 ≠ []) restricciones_sudoku →
     construir restricciones_sudoku 9
     = inr ((crear_variables 9).1, base 9 ++ jaulas restricciones_sudoku))
  ∧ (¬ Forall (λ j : jaula, j.2 ≠ []) restricciones_sudoku →
     construir restricciones_sudoku 9 = inl Z3Exception).
Proof.
  assert (1 ≤ 9) as Hn by lia.
  assert (Z.sqrt 9 | 9) as Hd by (exists 3; reflexivity).
  assert (Forall (λ j : jaula, Forall (λ k, 1 ≤ k.1 ≤ 9 ∧ 1 ≤ k.2 ≤ 9) j.2) restricciones_sudoku)
    as Hj by (unfold restricciones_sudoku; repeat (constructor; [repeat (constructor; [simpl; lia|]); constructor|]); constructor).
  split; [exact Hn|]. split; [exact Hd|]. split; [exact Hj|].
  exact (C10_construccion_total restricciones_sudoku 9 Hn Hd Hj).
Defined.

(** C10, tal como está escrita, es falsa: una jaula sin celdas cumple la
    hipótesis (no nombra ninguna coordenada fuera del tablero) y la
    construcción no es total, porque [Distinct] sin argumentos levanta
    [Z3Exception] en la línea 53, antes de la búsqueda. *)
Lemma C10_contraejemplo :
  1 ≤ 9 ∧ (Z.sqrt 9 | 9)
  ∧ Forall (λ j : jaula, Forall (λ k, 1 ≤ k.1 ≤ 9 ∧ 1 ≤ k.2 ≤ 9) j.2) [(5, [])]
  ∧ construir [(5, [])] 9 = inl Z3Exception
  ∧ ∀ fuel, resolver_sudoku_killer exhaustivo fuel [(5, [])] 9 = Some (inl Z3Exception).
Proof.
  assert (construir [(5, [])] 9 = inl Z3Exception) as Hc by (vm_compute; reflexivity).
  split; [lia|]. split; [by exists 3|]. split; [repeat constructor|]. split; [exact Hc|].
  intros fuel. unfold resolver_sudoku_killer. by rewrite Hc.
Qed.

(** * La instancia de 9x9 del programa *)

Lemma solucion_satisface :
  satisface modelo_solucion (base 9 ++ jaulas restricciones_sudoku).
Proof. apply (bool_decide_unpack _). vm_compute. reflexivity. Qed.

Lemma orden_sudoku_en_tablero : Forall (en_tablero 9) orden_sudoku.
Proof. apply (bool_decide_unpack _). vm_compute. reflexivity. Qed.

Lemma orden_sudoku_completo k : en_tablero 9 k → k ∈ orden_sudoku.
Proof.
  intros Hk%elem_of_claves.
  assert (Forall (λ k, k ∈ orden_sudoku) (claves 9)) as H
    by (apply (bool_decide_unpack _); vm_compute; reflexivity).
  rewrite Forall_forall in H. auto.
Qed.

Lemma jaulas_sudoku_en_tablero : Forall (jaula_en_tablero 9) restricciones_sudoku.
Proof. apply (bool_decide_unpack _). vm_compute. reflexivity. Qed.

Lemma bloques_sudoku_en_tablero : bloques_en_tablero 9 (Z.sqrt 9).
Proof. apply bloques_en_tablero_divide; [lia | by exists 3]. Qed.
Lemma tableros_modelo_sudoku :
  tableros_modelo restricciones_sudoku 9 orden_sudoku = [solucion_sudoku].
Proof. vm_compute. reflexivity. Qed.

(** La instancia tiene un único modelo. *)
Lemma sudoku_unico (m : modelo) :
  satisface m (base 9 ++ jaulas restricciones_sudoku) → tablero_de 9 m = solucion_sudoku.
Proof.
  intros Hm.
  pose proof (tableros_modelo_completo restricciones_sudoku 9 orden_sudoku m
                bloques_sudoku_en_tablero jaulas_sudoku_en_tablero
                orden_sudoku_en_tablero orden_sudoku_completo Hm) as H.
  rewrite tableros_modelo_sudoku in H. by apply list_elem_of_singleton in H.
Qed.

Lemma jaulas_sudoku_buenas : Forall (jaula_buena 9) restricciones_sudoku.
Proof. apply (bool_decide_unpack _). vm_compute. reflexivity. Qed.

Lemma construir_sudoku :
  construir restricciones_sudoku 9
  = inr ((crear_variables 9).1, base 9 ++ jaulas restricciones_sudoku).
Proof.
  apply construir_ok; [lia | exact bloques_sudoku_en_tablero | exact jaulas_sudoku_buenas].
Qed.

Lemma impresas_sudoku Z3 (fuel : nat) (out : salida) (t : tablero) :
  resolver_sudoku_killer Z3 fuel restricciones_sudoku dimension = Some (inr out) →
  t ∈ impresas out → t = solucion_sudoku.
Proof.
  intros Hr Ht.
  destruct (impresas_modelo Z3 fuel restricciones_sudoku 9 out t Hr Ht) as (m & -> & Hm & _).
  by apply sudoku_unico.
Qed.

(** C8 (enmendada): sobre la instancia de 9x9 escrita en el programa, el
    programa encuentra exactamente 1 solución, y la primera fila de esa
    solución única es 2 9 8 1 4 3 7 6 5. *)
Theorem C8_sudoku_del_programa Z3 (fuel : nat) :
  (2 ≤ fuel)%nat →
  ∃ out, resolver_sudoku_killer Z3 fuel restricciones_sudoku dimension = Some (inr out)
         ∧ soluciones_encontradas out = 1
         ∧ impresas out = [solucion_sudoku]
         ∧ fila_de solucion_sudoku 0 = [2; 9; 8; 1; 4; 3; 7; 6; 5].
Proof.
  intros Hfuel. destruct fuel as [|[|fuel]]; [lia | lia |].
  unfold resolver_sudoku_killer, dimension. rewrite construir_sudoku.
  assert (dominio_finito (base 9 ++ jaulas restricciones_sudoku)) as Hfin0.
  { pose proof (dominio_finito_solucionador 9 restricciones_sudoku []
                  bloques_sudoku_en_tablero jaulas_sudoku_en_tablero) as H.
    rewrite fmap_nil, app_nil_r in H. exact H. }
  pose proof solucion_satisface as Hsol. pose proof sudoku_unico as Huni.
  set (A0 := base 9 ++ jaulas restricciones_sudoku) in *. clearbody A0.
  rewrite bucle_paso.
  destruct (check Z3 A0) as [m|] eqn:Hck; cycle 1.
  { exfalso. exact (check_unsat Z3 _ Hfin0 Hck modelo_solucion Hsol). }
  pose proof (Huni m (check_sat Z3 _ _ Hck)) as Hm.
  rewrite bucle_paso.
  destruct (check Z3 (A0 ++ [clausula 9 m])) as [m'|] eqn:Hck'.
  - exfalso. apply check_sat, satisface_app in Hck' as [Hm0' Hb].
    pose proof (Huni m' Hm0') as Hm'.
    apply (satisface_elem m' _ (clausula 9 m)) in Hb; [|left].
    apply interp_clausula in Hb as (f & c & Hf & Hc & Hne). apply Hne.
    apply (tablero_de_eq 9 m' m); [congruence | done | done].
  - exists (Build_salida (0 + 1) ([] ++ [tablero_de 9 m]) (A0 ++ [clausula 9 m])).
    split; [reflexivity|]. split; [reflexivity|].
    split; [|reflexivity]. cbn [impresas app]. by rewrite Hm.
Qed.

Lemma C8_sudoku_del_programa_witness :
  (2 ≤ 2)%nat
  ∧ ∃ out, resolver_sudoku_killer exhaustivo 2 restricciones_sudoku dimension = Some (inr out)
           ∧ soluciones_encontradas out = 1
           ∧ impresas out = [solucion_sudoku]
           ∧ fila_de solucion_sudoku 0 = [2; 9; 8; 1; 4; 3; 7; 6; 5].
Proof.
  assert (2 ≤ 2)%nat as H by lia.
  split; [exact H|]. exact (C8_sudoku_del_programa exhaustivo 2 H).
Defined.

(** C8, tal como está escrita, es falsa: con ningún solucionador imprime el
    programa, para su instancia de 9x9, una solución cuya primera fila sea
    4 1 6 8 3 2 5 9 7. *)
Lemma C8_contraejemplo :
  ¬ ∃ (Z3 : QF_FD) (fuel : nat) (out : salida) (t : tablero),
      resolver_sudoku_killer Z3 fuel restricciones_sudoku dimension = Some (inr out)
      ∧ impresas out = [t]
      ∧ fila_de t 0 = [4; 1; 6; 8; 3; 2; 5; 9; 7].
Proof.
  intros (Z3 & fuel & out & t & Hr & Hout & Hfila).
  assert (t = solucion_sudoku) as ->.
  { apply (impresas_sudoku Z3 fuel out t Hr). rewrite Hout. left. }
  discriminate Hfila.
Qed.

(** * Más propiedades del programa *)

(** ** La construcción *)

Lemma NoDup_claves (n : Z) : NoDup (claves n).
Proof.
  unfold claves, range. apply NoDup_bind; [| |apply NoDup_seqZ].
  - intros f1 f2 k _ _ (c1 & Hk1 & _)%list_elem_of_bind (c2 & Hk2 & _)%list_elem_of_bind.
    apply list_elem_of_singleton in Hk1, Hk2. congruence.
  - intros f _. apply NoDup_bind; [| |apply NoDup_seqZ].
    + intros c1 c2 k _ _ Hk1%list_elem_of_singleton Hk2%list_elem_of_singleton. congruence.
    + intros c _. apply NoDup_singleton.
Qed.

Lemma length_claves (n : Z) : length (claves n) = (Z.to_nat n * Z.to_nat n)%nat.
Proof.
  unfold claves, range.
  assert (∀ l : list Z, length (fila ← l; columna ← seqZ 0 n; [(fila, columna)])
                        = (length l * Z.to_nat n)%nat) as H.
  { induction l as [|r l IH]; csimpl; [done|]. rewrite length_app, IH. f_equal.
    generalize (seqZ 0 n) (length_seqZ 0 n). intros l' <-.
    induction l' as [|c l' IH']; csimpl; [done | by rewrite IH']. }
  by rewrite H, length_seqZ.
Qed.

Lemma crear_variables_list_to_map (n : Z) :
  (crear_variables n).1 = list_to_map ((λ k, (k, nombre_celda k.1 k.2)) <$> claves n).
Proof.
  apply map_eq. intros k. rewrite crear_variables_tabla.
  assert (NoDup ((λ k, (k, nombre_celda k.1 k.2)) <$> claves n).*1) as Hnd.
  { rewrite <- list_fmap_compose. simpl.
    rewrite (list_fmap_ext _ id (claves n)) by done. rewrite list_fmap_id. apply NoDup_claves. }
  case_decide as Hk.
  - symmetry. apply elem_of_list_to_map; [done|].
    apply list_elem_of_fmap. exists k. split; [done | by apply elem_of_claves].
  - symmetry. apply not_elem_of_list_to_map. rewrite <- list_fmap_compose.
    intros (k' & -> & Hk')%list_elem_of_fmap. by apply elem_of_claves in Hk'.
Qed.

(** X1: tras las líneas 70-77 el diccionario [variables_tablero] tiene
    exactamente una clave por celda del tablero, [n * n] en total;
    [variables_tablero[(f, c)]] es la variable de nombre [celda[f+1,c+1]], y
    dos claves distintas nunca comparten variable. *)
Theorem X1_diccionario_de_variables (n : Z) :
  (∀ k v, (crear_variables n).1 !! k = Some v
          ↔ (0 ≤ k.1 < n ∧ 0 ≤ k.2 < n) ∧ v = Int (nombre_celda k.1 k.2))
  ∧ size (crear_variables n).1 = (Z.to_nat n * Z.to_nat n)%nat
  ∧ (∀ k k' v, (crear_variables n).1 !! k = Some v →
               (crear_variables n).1 !! k' = Some v → k = k').
Proof.
  assert (∀ k v, (crear_variables n).1 !! k = Some v
          ↔ (0 ≤ k.1 < n ∧ 0 ≤ k.2 < n) ∧ v = Int (nombre_celda k.1 k.2)) as H.
  { intros k v. rewrite crear_variables_tabla. unfold en_tablero, Int.
    case_decide; split; try done; try tauto.
    - intros [= <-]. done.
    - intros [_ ->]. done. }
  split; [exact H|]. split.
  - rewrite crear_variables_list_to_map, map_size_list_to_map.
    + by rewrite length_fmap, length_claves.
    + rewrite <- list_fmap_compose. simpl.
      rewrite (list_fmap_ext _ id (claves n)) by done. rewrite list_fmap_id. apply NoDup_claves.
  - intros [f c] [f' c'] v [_ ->]%H [_ Hv]%H. unfold Int, nombre_celda in Hv. simpl in Hv.
    injection Hv as ? ?. f_equal; lia.
Qed.

(** X2: [crear_variable_entera] devuelve la constante de ese nombre y añade
    solo sus dos cotas: los modelos del solucionador resultante son los del
    anterior que dan a la variable un valor entre el mínimo y el máximo,
    ambos incluidos; con un rango vacío deja el problema sin modelos. *)
Theorem X2_crear_variable_entera (solver : list expr) (nombre_variable : Z * Z)
    (valor_minimo valor_maximo : Z) :
  (crear_variable_entera solver nombre_variable valor_minimo valor_maximo).2 = Int nombre_variable
  ∧ (∀ m, satisface m (crear_variable_entera solver nombre_variable valor_minimo valor_maximo).1
          ↔ satisface m solver ∧ valor_minimo ≤ m (Int nombre_variable) ≤ valor_maximo)
  ∧ (valor_maximo < valor_minimo →
     ∀ m, ¬ satisface m (crear_variable_entera solver nombre_variable valor_minimo valor_maximo).1).
Proof.
  assert (∀ m, satisface m (crear_variable_entera solver nombre_variable valor_minimo valor_maximo).1
          ↔ satisface m solver ∧ valor_minimo ≤ m (Int nombre_variable) ≤ valor_maximo) as H.
  { intros m. unfold crear_variable_entera. simpl. rewrite satisface_app.
    unfold satisface at 2. rewrite !Forall_cons, Forall_nil. simpl. tauto. }
  split; [done|]. split; [exact H|].
  intros Hvacio m Hm%H. lia.
Qed.

(** X3: [agregar_restriccion_jaula] con un grupo vacío levanta
    [Z3Exception] (la de [Distinct] sin argumentos); con un grupo no vacío
    conserva lo que había y añade la suma y la unicidad: los modelos del
    resultado son los del solucionador anterior en los que las celdas del
    grupo suman el objetivo y toman valores distintos dos a dos.  Si una misma
    celda aparece dos veces en el grupo, el resultado no tiene modelos. *)
Theorem X3_agregar_restriccion_jaula (solver : list expr) (celdas_grupo : list var)
    (suma_objetivo : Z) :
  match agregar_restriccion_jaula solver celdas_grupo suma_objetivo with
  | inl e => e = Z3Exception ∧ celdas_grupo = []
  | inr solver' =>
      celdas_grupo ≠ []
      ∧ solver' = solver ++ [SumEq celdas_grupo suma_objetivo; Distinct celdas_grupo]
      ∧ (∀ m, satisface m solver'
              ↔ satisface m solver ∧ suma (m <$> celdas_grupo) = suma_objetivo
                ∧ NoDup (m <$> celdas_grupo))
      ∧ (¬ NoDup celdas_grupo → ∀ m, ¬ satisface m solver')
  end.
Proof.
  unfold agregar_restriccion_jaula. destruct celdas_grupo as [|v vs]; [done|].
  set (g := v :: vs). simpl. fold g.
  assert (∀ m, satisface m ((solver ++ [SumEq g suma_objetivo]) ++ [Distinct g])
        ↔ satisface m solver ∧ suma (m <$> g) = suma_objetivo ∧ NoDup (m <$> g)) as H.
  { intros m. rewrite !satisface_app.
    unfold satisface at 2 3. rewrite !Forall_cons, !Forall_nil. simpl. tauto. }
  split; [done|]. split; [by rewrite <- app_assoc|]. split; [exact H|].
  intros Hdup m (_ & _ & Hnd)%H. by apply Hdup, (NoDup_fmap_1 m).
Qed.

Lemma bloques_en_tablero_inv (n : Z) :
  1 ≤ n → bloques_en_tablero n (Z.sqrt n) → (Z.sqrt n | n).
Proof.
  intros Hn Hb. pose proof (sqrt_pos n Hn) as Hs.
  set (s := Z.sqrt n) in *.
  pose proof (Z.div_mod n s ltac:(lia)) as Hdm.
  pose proof (Z.mod_pos_bound n s ltac:(lia)) as Hr.
  pose proof (Z.div_pos n s ltac:(lia) ltac:(lia)) as Hq.
  destruct (decide (n `mod` s = 0)) as [H0|Hne].
  { exists (n `div` s). lia. }
  exfalso.
  assert (∀ i, 0 ≤ i → i * s < n → i * s ∈ inicios n s) as Hini.
  { intros i Hi0 Hi. unfold inicios. apply list_elem_of_fmap. exists i. split; [done|].
    apply elem_of_seqZ. split; [lia|].
    assert (i + 1 ≤ (n + s - 1) `div` s); [|lia].
    apply Z.div_le_lower_bound; nia. }
  unfold bloques_en_tablero in Hb. rewrite Forall_forall in Hb.
  specialize (Hb ((n `div` s) * s) (Hini _ Hq ltac:(lia))). rewrite Forall_forall in Hb.
  specialize (Hb (0 * s) (Hini 0 ltac:(lia) ltac:(lia))). rewrite Forall_forall in Hb.
  destruct (Hb ((n `div` s) * s + (s - 1), 0 * s + 0)) as [H1 _].
  - apply elem_of_claves_bloque. exists (s - 1), 0. split; [lia|]. split; [lia|]. done.
  - simpl in H1. lia.
Qed.

Lemma resolver_stdout_inl Z3 (fuel : nat) (restricciones : list jaula) (n : Z) e :
  construir restricciones n = inl e →
  resolver_sudoku_killer Z3 fuel restricciones n = Some (inl e)
  ∧ resolver_sudoku_killer_stdout Z3 fuel restricciones n = Some (Some e, []).
Proof.
  intros Hc. unfold resolver_sudoku_killer, resolver_sudoku_killer_stdout. by rewrite Hc.
Qed.

(** X4: con una dimensión que no es positiva el programa termina con una
    excepción antes de construir ninguna restricción de jaula y sin escribir
    nada, sean cuales sean las jaulas: [ValueError] (el paso cero de [range])
    para la dimensión 0; para una dimensión negativa, [OverflowError] si no
    cabe en un flotante ([n <= -(2^1024 - 2^970)]) y [TypeError] ([int] de un
    complejo) si cabe. *)
Theorem X4_dimension_no_positiva Z3 (fuel : nat) (restricciones : list jaula) (n : Z) :
  n ≤ 0 →
  resolver_sudoku_killer Z3 fuel restricciones n
    = Some (inl (if decide (n = 0) then ValueError
                 else if decide (n ≤ - (2 ^ 1024 - 2 ^ 970)) then OverflowError
                 else TypeError))
  ∧ resolver_sudoku_killer_stdout Z3 fuel restricciones n
    = Some (Some (if decide (n = 0) then ValueError
                  else if decide (n ≤ - (2 ^ 1024 - 2 ^ 970)) then OverflowError
                  else TypeError), []).
Proof.
  intros Hn. apply resolver_stdout_inl. case_decide as H0.
  - subst n. apply construir_cero.
  - apply construir_negativo. lia.
Qed.

Lemma X4_dimension_no_positiva_witness :
  -3 ≤ 0
  ∧ resolver_sudoku_killer exhaustivo 5 restricciones_sudoku (-3)
    = Some (inl (if decide (-3 = 0) then ValueError
                 else if decide (-3 ≤ - (2 ^ 1024 - 2 ^ 970)) then OverflowError
                 else TypeError))
  ∧ resolver_sudoku_killer_stdout exhaustivo 5 restricciones_sudoku (-3)
    = Some (Some (if decide (-3 = 0) then ValueError
                  else if decide (-3 ≤ - (2 ^ 1024 - 2 ^ 970)) then OverflowError
                  else TypeError), []).
Proof.
  assert (-3 ≤ 0) as H by lia.
  split; [exact H|]. exact (X4_dimension_no_positiva exhaustivo 5 restricciones_sudoku (-3) H).
Defined.

(** X5: para [n >= 1] la construcción (líneas 64-97) tiene éxito si y solo
    si [int(n ** 0.5)] divide a [n], todas las coordenadas de todas las
    jaulas están en [1..n] x [1..n] y ninguna jaula está vacía; cuando falla,
    falla con el [KeyError] de una clave que el diccionario no tiene o, solo
    si hay una jaula vacía, con [Z3Exception]. *)
Theorem X5_exito_de_la_construccion (restricciones : list jaula) (n : Z) :
  1 ≤ n →
  ((∃ T A, construir restricciones n = inr (T, A))
   ↔ (Z.sqrt n | n)
     ∧ Forall (λ j : jaula, Forall (λ k, 1 ≤ k.1 ≤ n ∧ 1 ≤ k.2 ≤ n) j.2) restricciones
     ∧ Forall (λ j : jaula, j.2 ≠ []) restricciones)
  ∧ (∀ e, construir restricciones n = inl e →
          (∃ k, e = KeyError k ∧ (crear_variables n).1 !! k = None)
          ∨ (e = Z3Exception ∧ ∃ suma_objetivo, (suma_objetivo, []) ∈ restricciones)).
Proof.
  intros Hn.
  assert (Forall (jaula_buena n) restricciones
          ↔ Forall (λ j : jaula, Forall (λ k, 1 ≤ k.1 ≤ n ∧ 1 ≤ k.2 ≤ n) j.2) restricciones
            ∧ Forall (λ j : jaula, j.2 ≠ []) restricciones) as Hj.
  { rewrite <- Forall_and. apply Forall_iff. intros [t cs]. unfold jaula_buena, jaula_en_tablero.
    apply and_iff_compat_r, Forall_iff. intros [f c]. unfold en_tablero. simpl. lia. }
  split; [split|].
  - intros (T & A & Hc). apply construir_inr_buenas in Hc as (_ & Hb & Hjs).
    split; [by apply bloques_en_tablero_inv | by apply Hj].
  - intros [Hdiv Hjs]. eexists _, _.
    apply construir_ok; [done | by apply bloques_en_tablero_divide | by apply Hj].
  - intros e He.
    destruct (decide (bloques_en_tablero n (Z.sqrt n) ∧ Forall (jaula_buena n) restricciones))
      as [[Hb Hjs]|np].
    + by rewrite (construir_ok restricciones n Hn Hb Hjs) in He.
    + destruct (construir_falla restricciones n Hn np)
        as [(k & Hk & Hc)|(Hc & pre & t & post & -> & _)].
      * left. exists k. split; [congruence|].
        rewrite crear_variables_tabla. by rewrite decide_False.
      * right. split; [congruence|]. exists t. set_solver.
Qed.

Lemma X5_exito_de_la_construccion_witness :
  1 ≤ 6
  ∧ ((∃ T A, construir [(7, [(1, 1); (6, 6)])] 6 = inr (T, A))
     ↔ (Z.sqrt 6 | 6)
       ∧ Forall (λ j : jaula, Forall (λ k, 1 ≤ k.1 ≤ 6 ∧ 1 ≤ k.2 ≤ 6) j.2) [(7, [(1, 1); (6, 6)])]
       ∧ Forall (λ j : jaula, j.2 ≠ []) [(7, [(1, 1); (6, 6)])])
  ∧ (∀ e, construir [(7, [(1, 1); (6, 6)])] 6 = inl e →
          (∃ k, e = KeyError k ∧ (crear_variables 6).1 !! k = None)
          ∨ (e = Z3Exception ∧ ∃ suma_objetivo, (suma_objetivo, []) ∈ [(7, [(1, 1); (6, 6)])])).
Proof.
  assert (1 ≤ 6) as H by lia.
  split; [exact H|]. exact (X5_exito_de_la_construccion [(7, [(1, 1); (6, 6)])] 6 H).
Defined.

(** X6: las jaulas se procesan en orden y solo añaden detrás: construir con
    [r1 ++ r2] es construir con [r1] y seguir el bucle de jaulas con [r2]
    sobre el mismo diccionario.  En particular una excepción con [r1] es la
    misma excepción con [r1 ++ r2]. *)
Theorem X6_jaulas_en_orden (r1 r2 : list jaula) (n : Z) :
  construir (r1 ++ r2) n
  = (st <~ construir r1 n ;;
     solucionador <~ para r2 (restringir_jaula st.1) st.2 ;;
     inr (st.1, solucionador)).
Proof. apply construir_app. Qed.

(** ** Qué se imprime *)

Lemma lista_por_indices {A} `{Inhabited A} (l : list A) (n : Z) :
  length l = Z.to_nat n → (λ i, l !!! Z.to_nat i) <$> seqZ 0 n = l.
Proof.
  intros Hlen. apply list_eq. intros i. rewrite list_lookup_fmap.
  destruct (decide (i < length l)%nat) as [Hlt|Hge].
  - rewrite lookup_seqZ_lt by lia. simpl.
    destruct (lookup_lt_is_Some_2 l i Hlt) as [x Hx]. rewrite Hx. f_equal.
    apply list_lookup_total_correct. rewrite <- Hx. f_equal. lia.
  - rewrite lookup_seqZ_ge by lia. simpl. symmetry. apply lookup_ge_None. lia.
Qed.

Lemma modelo_de_tablero_celda (t : tablero) (f c : Z) :
  modelo_de_tablero t (nombre_celda f c) = valor t f c.
Proof. unfold modelo_de_tablero, nombre_celda. simpl. f_equal; lia. Qed.

Lemma tablero_de_modelo_de_tablero (n : Z) (t : tablero) :
  length t = Z.to_nat n → Forall (λ fila, length fila = Z.to_nat n) t →
  tablero_de n (modelo_de_tablero t) = t.
Proof.
  intros Hlen Hfilas. unfold tablero_de, range.
  etrans; [|apply (lista_por_indices t n Hlen)].
  apply list_fmap_ext. intros _ f Hf%list_elem_of_lookup_2%elem_of_seqZ.
  assert (length (t !!! Z.to_nat f) = Z.to_nat n) as Hrow.
  { destruct (lookup_lt_is_Some_2 t (Z.to_nat f) ltac:(lia)) as [r Hr].
    rewrite (list_lookup_total_correct _ _ _ Hr).
    rewrite Forall_forall in Hfilas. apply Hfilas. by eapply list_elem_of_lookup_2. }
  etrans; [|apply (lista_por_indices (t !!! Z.to_nat f) n Hrow)].
  apply list_fmap_ext. intros _ c _. apply modelo_de_tablero_celda.
Qed.

Lemma tablero_de_forma (n : Z) (m : modelo) :
  length (tablero_de n m) = Z.to_nat n
  ∧ Forall (λ fila, length fila = Z.to_nat n) (tablero_de n m).
Proof.
  unfold tablero_de, range. split.
  - by rewrite length_fmap, length_seqZ.
  - apply Forall_fmap, Forall_forall. intros f _. simpl. by rewrite length_fmap, length_seqZ.
Qed.

Lemma modelo_es_solucion (n : Z) (restricciones : list jaula) (m : modelo) :
  bloques_en_tablero n (Z.sqrt n) → Forall (jaula_en_tablero n) restricciones →
  satisface m (base n ++ jaulas restricciones) →
  es_solucion n restricciones (tablero_de n m).
Proof.
  intros Hb Hj Hm. pose proof Hm as [Hbase Hjs]%satisface_app.
  destruct (tablero_de_forma n m) as [Hlen Hrows].
  split; [done|]. split; [|split; [|split; [|split]]].
  - apply Forall_fmap, Forall_forall. intros f Hf%elem_of_range. simpl.
    split; [unfold range; by rewrite length_fmap, length_seqZ|].
    apply Forall_fmap, Forall_forall. intros c Hc%elem_of_range. simpl.
    by apply (satisface_cotas n m (jaulas restricciones)).
  - intros f Hf. rewrite fila_de_tablero by done.
    destruct (fila_en_base n f Hf) as [H1 _]. apply (satisface_elem m _ _ Hbase H1).
  - intros c Hc. rewrite columna_de_tablero by done.
    destruct (fila_en_base n c Hc) as [_ H2]. apply (satisface_elem m _ _ Hbase H2).
  - intros fi ci Hfi Hci. rewrite (bloque_de_tablero n).
    + apply (satisface_elem m _ _ Hbase (bloque_en_base n fi ci Hfi Hci)).
    + unfold bloques_en_tablero in Hb. rewrite Forall_forall in Hb.
      specialize (Hb _ Hfi). rewrite Forall_forall in Hb. by apply Hb.
  - intros [t cs] Hin. simpl. by apply (modelo_jaula n restricciones).
Qed.

Lemma solucion_es_modelo (n : Z) (restricciones : list jaula) (t : tablero) :
  bloques_en_tablero n (Z.sqrt n) → Forall (jaula_en_tablero n) restricciones →
  es_solucion n restricciones t →
  tablero_de n (modelo_de_tablero t) = t
  ∧ satisface (modelo_de_tablero t) (base n ++ jaulas restricciones).
Proof.
  intros Hb Hj (Hlen & Hrows & Hf & Hc & Hbl & Hjs).
  assert (tablero_de n (modelo_de_tablero t) = t) as Heq.
  { apply tablero_de_modelo_de_tablero; [done|].
    eapply Forall_impl; [exact Hrows|]. by intros r [? _]. }
  split; [done|]. set (m := modelo_de_tablero t) in *.
  assert (∀ f c, 0 ≤ f < n → 0 ≤ c < n → 1 ≤ m (nombre_celda f c) ≤ n) as Hcotas.
  { intros f c Hf' Hc'. rewrite <- (valor_tablero_de n m f c Hf' Hc'), Heq. unfold valor.
    destruct (lookup_lt_is_Some_2 t (Z.to_nat f) ltac:(lia)) as [r Hr].
    rewrite (list_lookup_total_correct _ _ _ Hr).
    rewrite Forall_forall in Hrows. destruct (Hrows r) as [Hlr Hvals]; [by eapply list_elem_of_lookup_2|].
    destruct (lookup_lt_is_Some_2 r (Z.to_nat c) ltac:(lia)) as [x Hx].
    rewrite (list_lookup_total_correct _ _ _ Hx).
    rewrite Forall_forall in Hvals. apply Hvals. by eapply list_elem_of_lookup_2. }
  apply Forall_forall. intros e He.
  apply elem_of_app in He as [[[He|He]%elem_of_app|He]%elem_of_app|He].
  - apply list_elem_of_bind in He as ([f c] & He & [Hf' Hc']%elem_of_claves). simpl in *.
    specialize (Hcotas f c Hf' Hc').
    assert (e = Ge (nombre_celda f c) 1 ∨ e = Le (nombre_celda f c) n) as [->| ->]
      by set_solver; simpl; lia.
  - apply list_elem_of_bind in He as (f & He & Hf'%elem_of_range).
    assert (e = Distinct (fila_vars n f) ∨ e = Distinct (columna_vars n f)) as [->| ->]
      by set_solver; simpl.
    + rewrite <- fila_de_tablero, Heq by done. by apply Hf.
    + rewrite <- columna_de_tablero, Heq by done. by apply Hc.
  - apply list_elem_of_bind in He as (fi & He & Hfi).
    apply list_elem_of_bind in He as (ci & He & Hci).
    apply list_elem_of_singleton in He as ->. simpl.
    rewrite <- (bloque_de_tablero n), Heq; [by apply Hbl|].
    unfold bloques_en_tablero in Hb. rewrite Forall_forall in Hb.
    specialize (Hb _ Hfi). rewrite Forall_forall in Hb. by apply Hb.
  - apply list_elem_of_bind in He as ([s cs] & He & Hin).
    destruct (Hjs _ Hin) as [Hnd Hsum]. simpl in *.
    rewrite Forall_forall in Hj. specialize (Hj _ Hin).
    assert (e = SumEq (jaula_vars cs) s ∨ e = Distinct (jaula_vars cs)) as [->| ->]
      by set_solver; simpl; rewrite <- (jaula_de_tablero n), Heq; done.
Qed.

Lemma impresas_sii_solucion Z3 (fuel : nat) (restricciones : list jaula)
    (n : Z) (out : salida) (t : tablero) :
  resolver_sudoku_killer Z3 fuel restricciones n = Some (inr out) →
  t ∈ impresas out ↔ es_solucion n restricciones t.
Proof.
  intros Hr. split.
  - intros Ht.
    destruct (impresas_modelo Z3 fuel restricciones n out t Hr Ht) as (m & -> & Hm & _ & Hj & Hb).
    by apply modelo_es_solucion.
  - intros Hsol. apply resolver_spec in Hr as (ms & Hn & Hj & Hb & _ & _ & Hck & ->).
    destruct (solucion_es_modelo n restricciones t Hb Hj Hsol) as [Heq Hm].
    simpl. rewrite <- Heq. by apply (enumeracion_completa Z3 n restricciones).
Qed.

(** X8: el programa imprime exactamente las soluciones.  Cuando el bucle
    termina, un tablero está entre los impresos si y solo si es un tablero
    [n x n] con valores de [1..n] que cumple todas las reglas (filas,
    columnas, subcuadrículas y jaulas). *)
Theorem X8_imprime_exactamente_las_soluciones Z3 (fuel : nat) (restricciones : list jaula)
    (n : Z) (out : salida) (t : tablero) :
  resolver_sudoku_killer Z3 fuel restricciones n = Some (inr out) →
  t ∈ impresas out ↔ es_solucion n restricciones t.
Proof. apply impresas_sii_solucion. Qed.

Lemma X8_imprime_exactamente_las_soluciones_witness :
  resolver_sudoku_killer con_poda 4 jaulas_4x4 4 = Some (inr salida_4x4)
  ∧ (tablero_4x4 ∈ impresas salida_4x4 ↔ es_solucion 4 jaulas_4x4 tablero_4x4).
Proof.
  split; [exact corrida_4x4|].
  exact (X8_imprime_exactamente_las_soluciones con_poda 4 jaulas_4x4 4 salida_4x4 tablero_4x4
           corrida_4x4).
Defined.

(** X9: lo que se imprime no depende del solucionador.  Dos corridas sobre
    la misma entrada, con dos solucionadores cualesquiera, imprimen los
    mismos tableros (quizá en otro orden) y cuentan lo mismo. *)
Theorem X9_independiente_del_solucionador Z3 Z3' (fuel fuel' : nat)
    (restricciones : list jaula) (n : Z) (out out' : salida) :
  resolver_sudoku_killer Z3 fuel restricciones n = Some (inr out) →
  resolver_sudoku_killer Z3' fuel' restricciones n = Some (inr out') →
  impresas out ≡ₚ impresas out' ∧ soluciones_encontradas out = soluciones_encontradas out'.
Proof.
  intros Hr Hr'.
  assert (impresas out ≡ₚ impresas out') as Hp.
  { apply NoDup_Permutation.
    - apply resolver_spec in Hr as (ms & _ & _ & _ & _ & Hms & _ & ->). by eapply hallados_NoDup.
    - apply resolver_spec in Hr' as (ms & _ & _ & _ & _ & Hms & _ & ->). by eapply hallados_NoDup.
    - intros t. rewrite (impresas_sii_solucion Z3 fuel restricciones n out t Hr).
      by rewrite (impresas_sii_solucion Z3' fuel' restricciones n out' t Hr'). }
  split; [done|].
  apply resolver_spec in Hr as (ms & _ & _ & _ & _ & _ & _ & ->).
  apply resolver_spec in Hr' as (ms' & _ & _ & _ & _ & _ & _ & ->).
  simpl in *. apply Permutation_length in Hp. rewrite !length_fmap in Hp. lia.
Qed.

Lemma X9_independiente_del_solucionador_witness :
  resolver_sudoku_killer exhaustivo 3 [] 2 = Some (inr salida_2x2_exhaustivo)
  ∧ resolver_sudoku_killer con_poda 3 [] 2 = Some (inr salida_2x2_poda)
  ∧ impresas salida_2x2_exhaustivo ≡ₚ impresas salida_2x2_poda
  ∧ soluciones_encontradas salida_2x2_exhaustivo = soluciones_encontradas salida_2x2_poda.
Proof.
  split; [exact corrida_2x2_exhaustivo|]. split; [exact corrida_2x2_poda|].
  exact (X9_independiente_del_solucionador exhaustivo con_poda 3 3 [] 2 _ _
           corrida_2x2_exhaustivo corrida_2x2_poda).
Defined.

Lemma length_listas {A} (k : nat) (dom : list A) :
  length (listas k dom) = (length dom ^ k)%nat.
Proof.
  induction k as [|k IH]; [done|]. simpl listas.
  assert (∀ l : list A, length (x ← l; l' ← listas k dom; [x :: l'])
                        = (length l * length dom ^ k)%nat) as H.
  { induction l as [|x l IHl]; csimpl; [done|]. rewrite length_app, IHl. f_equal.
    rewrite <- IH. generalize (listas k dom). intros ls.
    induction ls as [|y ls IHls]; csimpl; [done | by rewrite IHls]. }
  rewrite H. simpl. done.
Qed.

(** X7: el contador es el número de tableros impresos, y nunca pasa de
    [n ^ (n * n)], el número de tableros [n x n] con valores de [1..n]: el
    bucle da a lo sumo ese número de vueltas con solución. *)
Theorem X7_contador Z3 (fuel : nat) (restricciones : list jaula) (n : Z) (out : salida) :
  resolver_sudoku_killer Z3 fuel restricciones n = Some (inr out) →
  soluciones_encontradas out = Z.of_nat (length (impresas out))
  ∧ soluciones_encontradas out ≤ n ^ (n * n).
Proof.
  intros (ms & Hn & _ & _ & _ & Hms & _ & ->)%resolver_spec. simpl.
  rewrite length_fmap. split; [done|].
  apply hallados_acotados in Hms. unfold todos_tableros in Hms.
  rewrite !length_listas, length_seqZ in Hms.
  apply inj_le in Hms. rewrite !Nat2Z.inj_pow, Z2Nat.id in Hms by lia.
  rewrite Z.pow_mul_r by lia. done.
Qed.

Lemma X7_contador_witness :
  resolver_sudoku_killer con_poda 4 jaulas_4x4 4 = Some (inr salida_4x4)
  ∧ soluciones_encontradas salida_4x4 = Z.of_nat (length (impresas salida_4x4))
  ∧ soluciones_encontradas salida_4x4 ≤ 4 ^ (4 * 4).
Proof.
  split; [exact corrida_4x4|].
  exact (X7_contador con_poda 4 jaulas_4x4 4 salida_4x4 corrida_4x4).
Defined.

(** X10: la cláusula que las líneas 113-117 añaden para un modelo excluye
    ese tablero y nada más: otro modelo la satisface si y solo si su tablero
    difiere del bloqueado en alguna celda.  En particular el modelo bloqueado
    no la satisface, y ninguna otra solución se pierde. *)
Theorem X10_clausula_de_bloqueo (n : Z) (m : modelo) :
  ∃ b, bloqueo n (crear_variables n).1 m = inr b
       ∧ ∀ m', interp m' b ↔ tablero_de n m' ≠ tablero_de n m.
Proof.
  exists (clausula n m). split; [apply bloqueo_ok|].
  intros m'. rewrite interp_clausula, tablero_de_eq. split.
  - intros (f & c & Hf & Hc & Hne) Heq. by apply Hne, Heq.
  - intros Hne.
    destruct (decide (Exists (λ k, m' (nombre_celda k.1 k.2) ≠ m (nombre_celda k.1 k.2)) (claves n)))
      as [Hex|Hno].
    + apply Exists_exists in Hex as ([f c] & [Hf Hc]%elem_of_claves & Hd). simpl in *. eauto.
    + exfalso. apply Hne. intros f c Hf Hc.
      destruct (decide (m' (nombre_celda f c) = m (nombre_celda f c))) as [|Hd]; [done|].
      exfalso. apply Hno, Exists_exists. exists (f, c). split; [by apply elem_of_claves | done].
Qed.

(** ** Jaulas imposibles *)

Lemma sin_modelos Z3 (fuel : nat) (restricciones : list jaula) (n : Z) :
  (1 ≤ n → Forall (jaula_en_tablero n) restricciones →
   ∀ m, ¬ satisface m (base n ++ jaulas restricciones)) →
  ∃ r, resolver_sudoku_killer Z3 (S fuel) restricciones n = Some r
       ∧ cuenta r = 0 ∧ ∀ out, r = inr out → impresas out = [].
Proof.
  intros Hno. unfold resolver_sudoku_killer.
  destruct (construir restricciones n) as [e|[T A]] eqn:Hc.
  { exists (inl e). repeat split; done. }
  apply construir_inr in Hc as (Hn & -> & -> & Hj & Hb). simpl.
  destruct (check Z3 _) as [m|] eqn:Hck.
  - exfalso. apply check_sat in Hck. by apply (Hno Hn Hj m).
  - eexists. split; [done|]. split; [done|]. by intros out [= <-].
Qed.

Lemma suma_Permutation (l l' : list Z) : l ≡ₚ l' → suma l = suma l'.
Proof. induction 1; simpl; lia. Qed.

(** [k] valores distintos de [1..n] suman entre [1 + ... + k] y
    [(n - k + 1) + ... + n]. *)
Lemma suma_distintos (n : nat) (l : list Z) :
  NoDup l → Forall (λ x, 1 ≤ x ≤ Z.of_nat n) l →
  Z.of_nat (length l) ≤ Z.of_nat n
  ∧ Z.of_nat (length l) * (Z.of_nat (length l) + 1) ≤ 2 * suma l
  ∧ 2 * suma l ≤ Z.of_nat (length l) * (2 * Z.of_nat n - Z.of_nat (length l) + 1).
Proof.
  revert l. induction n as [|n IH]; intros l Hnd Hl.
  - destruct l as [|x l]; [simpl; lia|]. apply Forall_cons in Hl as [Hx _]. lia.
  - destruct (decide (Z.of_nat (S n) ∈ l)) as [Hin|Hno].
    + apply elem_of_Permutation in Hin as [l' Hp].
      rewrite Hp in Hnd, Hl. apply NoDup_cons in Hnd as [Hx Hnd].
      apply Forall_cons in Hl as [_ Hl].
      destruct (IH l' Hnd) as (H1 & H2 & H3).
      { rewrite Forall_forall in Hl |- *. intros y Hy. specialize (Hl y Hy).
        assert (y ≠ Z.of_nat (S n)) by (intros ->; done). lia. }
      rewrite (suma_Permutation _ _ Hp), (Permutation_length Hp). simpl suma. simpl length.
      nia.
    + destruct (IH l Hnd) as (H1 & H2 & H3).
      { rewrite Forall_forall in Hl |- *. intros y Hy. specialize (Hl y Hy).
        assert (y ≠ Z.of_nat (S n)) by (intros ->; done). lia. }
      nia.
Qed.

(** X12: una jaula que nombra dos veces la misma celda no tiene solución:
    el programa cuenta cero soluciones y no imprime ningún tablero. *)
Theorem X12_celda_repetida Z3 (fuel : nat) (restricciones : list jaula) (n : Z)
    (suma_objetivo : Z) (celdas_grupo : list (Z * Z)) :
  (suma_objetivo, celdas_grupo) ∈ restricciones → ¬ NoDup celdas_grupo →
  ∃ r, resolver_sudoku_killer Z3 (S fuel) restricciones n = Some r
       ∧ cuenta r = 0 ∧ ∀ out, r = inr out → impresas out = [].
Proof.
  intros Hin Hdup. apply sin_modelos. intros _ _ m [_ Hm]%satisface_app.
  destruct (jaula_en_jaulas restricciones _ _ Hin) as [_ Hd].
  pose proof (satisface_elem m _ _ Hm Hd) as Hnd. simpl in Hnd.
  apply NoDup_fmap_1 in Hnd. unfold jaula_vars in Hnd. by apply NoDup_fmap_1 in Hnd.
Qed.

Lemma X12_celda_repetida_witness :
  (3, [(1, 1); (1, 2); (1, 1)]) ∈ [(3, [(1, 1); (1, 2); (1, 1)])]
  ∧ ¬ NoDup [(1, 1); (1, 2); (1, 1)]
  ∧ ∃ r, resolver_sudoku_killer exhaustivo 1 [(3, [(1, 1); (1, 2); (1, 1)])] 2 = Some r
         ∧ cuenta r = 0 ∧ ∀ out, r = inr out → impresas out = [].
Proof.
  assert ((3, [(1, 1); (1, 2); (1, 1)]) ∈ [(3, [(1, 1); (1, 2); (1, 1)])]) as Hin by left.
  assert (¬ NoDup [(1, 1); (1, 2); (1, 1)]) as Hdup.
  { intros Hnd. apply NoDup_cons in Hnd as [Hx _]. apply Hx. right. left. }
  split; [exact Hin|]. split; [exact Hdup|].
  exact (X12_celda_repetida exhaustivo 0 _ 2 3 _ Hin Hdup).
Defined.

(** X13: una jaula de [k] celdas solo puede tener solución si [k <= n] y su
    objetivo está entre [k (k + 1) / 2] y [k (2 n - k + 1) / 2] (las sumas de
    los [k] valores más pequeños y más grandes de [1..n]); si no, el programa
    cuenta cero soluciones y no imprime ningún tablero. *)
Theorem X13_objetivo_imposible Z3 (fuel : nat) (restricciones : list jaula) (n : Z)
    (suma_objetivo : Z) (celdas_grupo : list (Z * Z)) :
  (suma_objetivo, celdas_grupo) ∈ restricciones →
  n < Z.of_nat (length celdas_grupo)
  ∨ 2 * suma_objetivo < Z.of_nat (length celdas_grupo) * (Z.of_nat (length celdas_grupo) + 1)
  ∨ Z.of_nat (length celdas_grupo) * (2 * n - Z.of_nat (length celdas_grupo) + 1)
    < 2 * suma_objetivo →
  ∃ r, resolver_sudoku_killer Z3 (S fuel) restricciones n = Some r
       ∧ cuenta r = 0 ∧ ∀ out, r = inr out → impresas out = [].
Proof.
  intros Hin Hmal. apply sin_modelos. intros Hn1 Hj m Hm.
  assert (0 ≤ n) as Hn by lia.
  destruct (modelo_jaula n restricciones m _ _ Hm Hj Hin) as [Hnd Hs].
  rewrite Forall_forall in Hj. specialize (Hj _ Hin).
  destruct (suma_distintos (Z.to_nat n) (jaula_de (tablero_de n m) celdas_grupo) Hnd)
    as (H1 & H2 & H3).
  - rewrite (jaula_de_tablero n m) by done. unfold jaula_vars.
    apply Forall_forall. intros x (w & -> & (k & -> & Hk)%list_elem_of_fmap)%list_elem_of_fmap.
    unfold jaula_en_tablero in Hj. rewrite Forall_forall in Hj. destruct (Hj k Hk).
    rewrite Z2Nat.id by done. by apply (satisface_cotas n m (jaulas restricciones)).
  - unfold jaula_de in H1, H2, H3. rewrite length_fmap, Z2Nat.id in * by done.
    unfold jaula_de in Hs. lia.
Qed.

Lemma X13_objetivo_imposible_witness :
  (2, [(1, 1); (1, 2)]) ∈ [(2, [(1, 1); (1, 2)])]
  ∧ (4 < Z.of_nat (length [(1, 1); (1, 2)])
     ∨ 2 * 2 < Z.of_nat (length [(1, 1); (1, 2)]) * (Z.of_nat (length [(1, 1); (1, 2)]) + 1)
     ∨ Z.of_nat (length [(1, 1); (1, 2)]) * (2 * 4 - Z.of_nat (length [(1, 1); (1, 2)]) + 1)
       < 2 * 2)
  ∧ ∃ r, resolver_sudoku_killer con_poda 1 [(2, [(1, 1); (1, 2)])] 4 = Some r
         ∧ cuenta r = 0 ∧ ∀ out, r = inr out → impresas out = [].
Proof.
  assert ((2, [(1, 1); (1, 2)]) ∈ [(2, [(1, 1); (1, 2)])]) as Hin by left.
  assert (4 < Z.of_nat (length [(1, 1); (1, 2)])
     ∨ 2 * 2 < Z.of_nat (length [(1, 1); (1, 2)]) * (Z.of_nat (length [(1, 1); (1, 2)]) + 1)
     ∨ Z.of_nat (length [(1, 1); (1, 2)]) * (2 * 4 - Z.of_nat (length [(1, 1); (1, 2)]) + 1)
       < 2 * 2) as Hmal by (right; left; simpl; lia).
  split; [exact Hin|]. split; [exact Hmal|].
  exact (X13_objetivo_imposible con_poda 0 _ 4 2 _ Hin Hmal).
Defined.

(** ** La salida estándar *)

Lemma imprimir_filas_ok (n : Z) (m : modelo) (filas : list Z) (stdout : list string) :
  Forall (λ f, 0 ≤ f < n) filas →
  imprimir_filas n (crear_variables n).1 m filas stdout
  = (None, stdout ++ ((λ fila, join " " (str <$> ((λ columna, m (nombre_celda fila columna)) <$> range n)))
                        <$> filas)).
Proof.
  intros Hf. revert stdout. induction Hf as [|f filas Hf Hfs IH]; intros stdout; simpl.
  - by rewrite app_nil_r.
  - assert (comprension (λ columna,
              v <~ elemento (crear_variables n).1 (f, columna) ;; inr (str (m v))) (range n)
            = inr (str <$> ((λ columna, m (nombre_celda f columna)) <$> range n))) as ->.
    { apply comprension_inr. rewrite <- list_fmap_compose.
      apply Forall2_fmap_r, Forall_Forall2_diag, Forall_forall.
      intros c Hc%elem_of_range. rewrite elemento_tabla, decide_True; [done | by split]. }
    rewrite IH. by rewrite <- app_assoc.
Qed.

Lemma bucle_stdout_paso Z3 (n : Z) (fuel : nat) (s : list expr) (c : Z) (txt : list string) :
  bucle_stdout Z3 n (crear_variables n).1 (S fuel) s c txt
  = match check Z3 s with
    | None => Some (None, c, txt)
    | Some m => bucle_stdout Z3 n (crear_variables n).1 fuel (s ++ [clausula n m]) (c + 1)
                  (txt ++ lineas_solucion (c + 1) (tablero_de n m))
    end.
Proof.
  simpl. destruct (check Z3 s) as [m|]; [|done].
  rewrite imprimir_filas_ok by (apply Forall_forall; intros f Hf%elem_of_range; done).
  rewrite bloqueo_ok. f_equal. unfold lineas_solucion, tablero_de.
  rewrite <- !app_assoc. do 3 f_equal. by rewrite <- list_fmap_compose.
Qed.

Lemma bucle_stdout_spec Z3 (n : Z) (fuel : nat) (s : list expr) (c : Z) (imp : list tablero)
    (txt : list string) :
  match bucle Z3 n (crear_variables n).1 fuel s c imp with
  | None => bucle_stdout Z3 n (crear_variables n).1 fuel s c txt = None
  | Some (inl _) => False
  | Some (inr out) =>
    ∃ ts, impresas out = imp ++ ts
          ∧ bucle_stdout Z3 n (crear_variables n).1 fuel s c txt
            = Some (None, soluciones_encontradas out, txt ++ escrito c ts)
  end.
Proof.
  revert s c imp txt. induction fuel as [|fuel IH]; intros s c imp txt; [done|].
  rewrite bucle_paso, bucle_stdout_paso. destruct (check Z3 s) as [m|].
  - specialize (IH (s ++ [clausula n m]) (c + 1) (imp ++ [tablero_de n m])
                   (txt ++ lineas_solucion (c + 1) (tablero_de n m))).
    destruct (bucle Z3 n _ fuel _ _ _) as [[e|out]|]; [done| |done].
    destruct IH as (ts & Hts & Hb). exists (tablero_de n m :: ts). split.
    + by rewrite Hts, <- app_assoc.
    + rewrite Hb. simpl. by rewrite <- app_assoc.
  - exists []. simpl. by rewrite !app_nil_r.
Qed.

Lemma resolver_stdout_spec Z3 (fuel : nat) (restricciones : list jaula) (n : Z) :
  resolver_sudoku_killer_stdout Z3 fuel restricciones n
  = texto_de <$> resolver_sudoku_killer Z3 fuel restricciones n.
Proof.
  unfold resolver_sudoku_killer_stdout, resolver_sudoku_killer.
  destruct (construir restricciones n) as [e|[T A]] eqn:Hc; [done|].
  apply construir_inr in Hc as (Hn & -> & -> & Hj & Hb).
  pose proof (bucle_stdout_spec Z3 n fuel (base n ++ jaulas restricciones) 0 [] []) as H.
  destruct (bucle Z3 n _ fuel _ 0 []) as [[e|out]|]; [done| |by rewrite H].
  destruct H as (ts & Hts & ->). simpl in *. by rewrite Hts.
Qed.

Lemma length_escrito (n : Z) (c : Z) (ts : list tablero) :
  Forall (λ t, length t = Z.to_nat n) ts →
  length (escrito c ts) = (length ts * (Z.to_nat n + 2))%nat.
Proof.
  intros Hts. revert c. induction Hts as [|t ts Ht Hts IH]; intros c; simpl; [done|].
  rewrite !length_app, length_fmap, IH, Ht. simpl. lia.
Qed.

(** X11: si el programa termina con una excepción, la excepción viene de la
    construcción de las restricciones (líneas 64-97) y no se ha escrito
    nada; una vez empezada la búsqueda ya no hay excepción posible. *)
Theorem X11_excepcion_solo_al_construir Z3 (fuel : nat) (restricciones : list jaula) (n : Z)
    (e : excepcion) (stdout : list string) :
  resolver_sudoku_killer_stdout Z3 fuel restricciones n = Some (Some e, stdout) →
  stdout = [] ∧ construir restricciones n = inl e.
Proof.
  rewrite resolver_stdout_spec.
  destruct (resolver_sudoku_killer Z3 fuel restricciones n) as [[e'|out]|] eqn:Hr; simpl; [|done|done].
  intros [= -> <-]. split; [done|]. by apply (resolver_inl Z3 fuel).
Qed.

Lemma X11_excepcion_solo_al_construir_witness :
  resolver_sudoku_killer_stdout con_poda 3 [(5, [(1, 1); (4, 5)])] 4
  = Some (Some (KeyError (3, 4)), [])
  ∧ ([] : list string) = [] ∧ construir [(5, [(1, 1); (4, 5)])] 4 = inl (KeyError (3, 4)).
Proof.
  assert (resolver_sudoku_killer_stdout con_poda 3 [(5, [(1, 1); (4, 5)])] 4
          = Some (Some (KeyError (3, 4)), [])) as H by (vm_compute; reflexivity).
  split; [exact H|].
  exact (X11_excepcion_solo_al_construir con_poda 3 _ 4 _ _ H).
Defined.

(** X14: lo que escribe una corrida que termina sin excepción: por cada
    tablero encontrado, en orden y numerados desde 1, el rótulo
    "Solución k:", una línea por fila con los valores separados por un
    espacio y una línea vacía; y al final una sola línea de resumen.  En
    total [(n + 2) * soluciones + 1] líneas. *)
Theorem X14_salida_estandar Z3 (fuel : nat) (restricciones : list jaula) (n : Z) (out : salida) :
  resolver_sudoku_killer Z3 fuel restricciones n = Some (inr out) →
  ∃ stdout, resolver_sudoku_killer_stdout Z3 fuel restricciones n = Some (None, stdout)
            ∧ stdout = escrito 0 (impresas out) ++ [mensaje_final (soluciones_encontradas out)]
            ∧ Z.of_nat (length stdout) = (n + 2) * soluciones_encontradas out + 1.
Proof.
  intros Hr. rewrite resolver_stdout_spec, Hr. simpl. eexists. split; [done|]. split; [done|].
  apply resolver_spec in Hr as (ms & Hn & _ & _ & _ & _ & _ & ->). simpl.
  rewrite length_app, (length_escrito n).
  - rewrite length_fmap. simpl. lia.
  - apply Forall_fmap, Forall_forall. intros m _. apply tablero_de_forma.
Qed.

Lemma X14_salida_estandar_witness :
  resolver_sudoku_killer con_poda 4 jaulas_4x4 4 = Some (inr salida_4x4)
  ∧ ∃ stdout, resolver_sudoku_killer_stdout con_poda 4 jaulas_4x4 4 = Some (None, stdout)
              ∧ stdout = escrito 0 (impresas salida_4x4)
                           ++ [mensaje_final (soluciones_encontradas salida_4x4)]
              ∧ Z.of_nat (length stdout) = (4 + 2) * soluciones_encontradas salida_4x4 + 1.
Proof.
  split; [exact corrida_4x4|].
  exact (X14_salida_estandar con_poda 4 jaulas_4x4 4 salida_4x4 corrida_4x4).
Defined.

(** X15: la última línea dice la verdad sobre la instancia.  En una corrida
    que termina sin excepción, la última línea escrita es
    "No se encontraron soluciones." si y solo si ningún tablero cumple las
    reglas; si alguno las cumple, es "Total de soluciones encontradas: k"
    con [k >= 1] el número de tableros impresos. *)
Theorem X15_mensaje_final Z3 (fuel : nat) (restricciones : list jaula) (n : Z)
    (stdout : list string) :
  resolver_sudoku_killer_stdout Z3 fuel restricciones n = Some (None, stdout) →
  (last stdout = Some "No se encontraron soluciones."
   ↔ ∀ t, ¬ es_solucion n restricciones t)
  ∧ ((∃ t, es_solucion n restricciones t) →
     ∃ k, 1 ≤ k ∧ last stdout = Some ("Total de soluciones encontradas: " +:+ str k)
          ∧ ∃ out, resolver_sudoku_killer Z3 fuel restricciones n = Some (inr out)
                   ∧ k = Z.of_nat (length (impresas out))).
Proof.
  rewrite resolver_stdout_spec.
  destruct (resolver_sudoku_killer Z3 fuel restricciones n) as [[e|out]|] eqn:Hr; simpl; [done| |done].
  intros [= <-]. rewrite last_snoc.
  pose proof Hr as (ms & _ & _ & _ & _ & _ & _ & Hout)%resolver_spec.
  assert (soluciones_encontradas out = Z.of_nat (length (impresas out))) as Hcnt.
  { subst out. simpl. by rewrite length_fmap. }
  unfold mensaje_final. split.
  - case_decide as H0.
    + split; [|done]. intros _ t Ht. apply (impresas_sii_solucion Z3 fuel restricciones n out t Hr) in Ht.
      destruct (impresas out); [by apply elem_of_nil in Ht | simpl in *; lia].
    + split; [intros [= Heq]; discriminate Heq|].
      intros Hno. exfalso. destruct (impresas out) as [|t ts] eqn:Himp; [simpl in *; lia|].
      apply (Hno t), (impresas_sii_solucion Z3 fuel restricciones n out t Hr). rewrite Himp. left.
  - intros [t Ht]. apply (impresas_sii_solucion Z3 fuel restricciones n out t Hr) in Ht.
    exists (soluciones_encontradas out).
    assert (1 ≤ soluciones_encontradas out) as Hk.
    { rewrite Hcnt. destruct (impresas out); [by apply elem_of_nil in Ht | simpl; lia]. }
    split; [done|]. rewrite decide_False by lia. split; [done|]. eauto.
Qed.

Lemma X15_mensaje_final_witness :
  resolver_sudoku_killer_stdout con_poda 4 jaulas_4x4 4 = Some (None, stdout_4x4)
  ∧ (last stdout_4x4 = Some "No se encontraron soluciones."
     ↔ ∀ t, ¬ es_solucion 4 jaulas_4x4 t)
  ∧ ((∃ t, es_solucion 4 jaulas_4x4 t) →
     ∃ k, 1 ≤ k
          ∧ last stdout_4x4 = Some ("Total de soluciones encontradas: " +:+ str k)
          ∧ ∃ out, resolver_sudoku_killer con_poda 4 jaulas_4x4 4 = Some (inr out)
                   ∧ k = Z.of_nat (length (impresas out))).
Proof.
  assert (resolver_sudoku_killer_stdout con_poda 4 jaulas_4x4 4 = Some (None, stdout_4x4)) as H
    by (vm_compute; reflexivity).
  split; [exact H|].
  exact (X15_mensaje_final con_poda 4 jaulas_4x4 4 _ H).
Defined.

(** ** Vueltas del bucle y tamaño del problema *)

Lemma bucle_mas_combustible Z3 (n : Z) T (fuel k : nat) (s : list expr) (c : Z)
    (imp : list tablero) r :
  bucle Z3 n T fuel s c imp = Some r → bucle Z3 n T (fuel + k) s c imp = Some r.
Proof.
  revert s c imp. induction fuel as [|fuel IH]; intros s c imp; [done|]. simpl.
  destruct (check Z3 s) as [m|]; [|done].
  destruct (imprimir n T m); [done|]. destruct (bloqueo n T m); [done|]. apply IH.
Qed.

Lemma bucle_vueltas Z3 (n : Z) T (fuel : nat) (s : list expr) (c : Z) (imp : list tablero) out :
  bucle Z3 n T fuel s c imp = Some (inr out) →
  c ≤ soluciones_encontradas out
  ∧ bucle Z3 n T (Z.to_nat (soluciones_encontradas out - c)) s c imp = None
  ∧ bucle Z3 n T (S (Z.to_nat (soluciones_encontradas out - c))) s c imp = Some (inr out).
Proof.
  revert s c imp. induction fuel as [|fuel IH]; intros s c imp; [done|]. simpl.
  destruct (check Z3 s) as [m|] eqn:Hck.
  - destruct (imprimir n T m) as [|t] eqn:Hi; [done|].
    destruct (bloqueo n T m) as [|b] eqn:Hb; [done|].
    intros (H1 & H2 & H3)%IH. split; [lia|].
    replace (Z.to_nat (soluciones_encontradas out - c))
      with (S (Z.to_nat (soluciones_encontradas out - (c + 1)))) by lia.
    split.
    + simpl. by rewrite Hck, Hi, Hb.
    + done.
  - intros [= <-]. simpl. rewrite Z.sub_diag. simpl. split; [lia | done].
Qed.

(** X16: el bucle llama a [check] exactamente una vez más que soluciones
    encuentra.  Con un tope de [fuel'] llamadas la corrida termina si y solo
    si [fuel'] supera el número de soluciones, y entonces el resultado no
    depende del tope. *)
Theorem X16_llamadas_a_check Z3 (fuel : nat) (restricciones : list jaula) (n : Z) (out : salida) :
  resolver_sudoku_killer Z3 fuel restricciones n = Some (inr out) →
  ∀ fuel', resolver_sudoku_killer Z3 fuel' restricciones n
           = if decide (length (impresas out) < fuel')%nat then Some (inr out) else None.
Proof.
  intros Hr fuel'.
  pose proof Hr as (ms & _ & _ & _ & _ & _ & _ & Hout)%resolver_spec.
  assert (soluciones_encontradas out = Z.of_nat (length (impresas out))) as Hcnt.
  { subst out. simpl. by rewrite length_fmap. }
  clear Hout. unfold resolver_sudoku_killer in *.
  destruct (construir restricciones n) as [e|[T A]]; [done|].
  destruct (bucle_vueltas Z3 n T fuel A 0 [] out Hr) as (_ & Hnone & Hsome).
  rewrite Z.sub_0_r, Hcnt, Nat2Z.id in Hnone, Hsome.
  case_decide as Hf.
  - replace fuel' with (S (length (impresas out)) + (fuel' - S (length (impresas out))))%nat by lia.
    by apply bucle_mas_combustible.
  - destruct (bucle Z3 n T fuel' A 0 []) as [r|] eqn:Hr'; [|done].
    apply (bucle_mas_combustible _ _ _ _ (length (impresas out) - fuel')) in Hr'.
    replace (fuel' + (length (impresas out) - fuel'))%nat with (length (impresas out)) in Hr' by lia.
    congruence.
Qed.

Lemma X16_llamadas_a_check_witness :
  resolver_sudoku_killer con_poda 4 jaulas_4x4 4 = Some (inr salida_4x4)
  ∧ ∀ fuel', resolver_sudoku_killer con_poda fuel' jaulas_4x4 4
             = if decide (length (impresas salida_4x4) < fuel')%nat
               then Some (inr salida_4x4) else None.
Proof.
  split; [exact corrida_4x4|].
  exact (X16_llamadas_a_check con_poda 4 jaulas_4x4 4 salida_4x4 corrida_4x4).
Defined.

Lemma length_bind_constante {A B} (f : A → list B) (l : list A) (k : nat) :
  (∀ x, x ∈ l → length (f x) = k) → length (l ≫= f) = (length l * k)%nat.
Proof.
  induction l as [|x l IH]; intros Hf; csimpl; [done|].
  rewrite length_app, Hf by left. f_equal. apply IH. intros. apply Hf. by right.
Qed.

(** X17: el tamaño del problema que recibe el solucionador.  Para [n >= 1]
    con subcuadrícula [s = int(n ** 0.5)] que divide a [n], antes de la
    búsqueda hay [2 n^2] cotas, [2 n] restricciones de fila y columna,
    [(n / s)^2] de subcuadrícula y dos por jaula, en ese orden. *)
Theorem X17_numero_de_aserciones (restricciones : list jaula) (n : Z) T A :
  construir restricciones n = inr (T, A) → (Z.sqrt n | n) →
  Z.of_nat (length A)
  = 2 * n * n + 2 * n + (n `div` Z.sqrt n) * (n `div` Z.sqrt n)
    + 2 * Z.of_nat (length restricciones).
Proof.
  intros (Hn & -> & -> & _ & _)%construir_inr [q Hq].
  pose proof (sqrt_pos n Hn) as Hs.
  unfold base, cotas, filas_columnas, bloques, jaulas. rewrite !length_app.
  rewrite (length_bind_constante _ (claves n) 2) by done.
  rewrite (length_bind_constante _ (range n) 2) by done.
  rewrite (length_bind_constante _ restricciones 2) by done.
  rewrite (length_bind_constante _ (inicios n (Z.sqrt n)) (length (inicios n (Z.sqrt n)))).
  2:{ intros fi _. rewrite (length_bind_constante _ _ 1) by done. lia. }
  rewrite length_claves. unfold inicios, range. rewrite !length_fmap, !length_seqZ.
  generalize dependent (Z.sqrt n). intros s Hq Hs.
  assert (n `div` s = q) as -> by (subst n; apply Z.div_mul; lia).
  assert ((n + s - 1) `div` s = q) as ->.
  { symmetry. apply (Z.div_unique_pos _ _ q (s - 1)); lia. }
  assert (0 ≤ q) by nia. nia.
Qed.

Lemma X17_numero_de_aserciones_witness :
  construir restricciones_sudoku 9
  = inr ((crear_variables 9).1, base 9 ++ jaulas restricciones_sudoku)
  ∧ (Z.sqrt 9 | 9)
  ∧ Z.of_nat (length (base 9 ++ jaulas restricciones_sudoku))
    = 2 * 9 * 9 + 2 * 9 + (9 `div` Z.sqrt 9) * (9 `div` Z.sqrt 9)
      + 2 * Z.of_nat (length restricciones_sudoku).
Proof.
  assert (construir restricciones_sudoku 9
          = inr ((crear_variables 9).1, base 9 ++ jaulas restricciones_sudoku)) as H.
  { apply construir_ok; [lia | apply bloques_en_tablero_divide; [lia | by exists 3] |].
    apply (bool_decide_unpack _). vm_compute. reflexivity. }
  assert (Z.sqrt 9 | 9) as Hd by (exists 3; reflexivity).
  split; [exact H|]. split; [exact Hd|].
  exact (X17_numero_de_aserciones restricciones_sudoku 9 _ _ H Hd).
Defined.

(** X18: lo impreso depende solo del conjunto de jaulas, no de su orden ni
    de si alguna se repite: dos corridas que terminan sobre listas con las
    mismas jaulas imprimen los mismos tableros y cuentan lo mismo. *)
Theorem X18_conjunto_de_jaulas Z3 (fuel fuel' : nat) (r r' : list jaula) (n : Z)
    (out out' : salida) :
  (∀ j, j ∈ r ↔ j ∈ r') →
  resolver_sudoku_killer Z3 fuel r n = Some (inr out) →
  resolver_sudoku_killer Z3 fuel' r' n = Some (inr out') →
  impresas out ≡ₚ impresas out' ∧ soluciones_encontradas out = soluciones_encontradas out'.
Proof.
  intros Hset Hr Hr'.
  assert (impresas out ≡ₚ impresas out') as Hp.
  { apply NoDup_Permutation.
    - apply resolver_spec in Hr as (ms & _ & _ & _ & _ & Hms & _ & ->). by eapply hallados_NoDup.
    - apply resolver_spec in Hr' as (ms & _ & _ & _ & _ & Hms & _ & ->). by eapply hallados_NoDup.
    - intros t. rewrite (impresas_sii_solucion Z3 fuel r n out t Hr).
      rewrite (impresas_sii_solucion Z3 fuel' r' n out' t Hr').
      unfold es_solucion. by setoid_rewrite Hset. }
  split; [done|].
  apply resolver_spec in Hr as (ms & _ & _ & _ & _ & _ & _ & ->).
  apply resolver_spec in Hr' as (ms' & _ & _ & _ & _ & _ & _ & ->).
  simpl in *. apply Permutation_length in Hp. rewrite !length_fmap in Hp. lia.
Qed.

Lemma X18_conjunto_de_jaulas_witness :
  (∀ j, j ∈ jaulas_4x4 ↔ j ∈ jaulas_4x4_otro_orden)
  ∧ resolver_sudoku_killer con_poda 4 jaulas_4x4 4 = Some (inr salida_4x4)
  ∧ resolver_sudoku_killer con_poda 4 jaulas_4x4_otro_orden 4 = Some (inr salida_4x4_otro_orden)
  ∧ impresas salida_4x4 ≡ₚ impresas salida_4x4_otro_orden
  ∧ soluciones_encontradas salida_4x4 = soluciones_encontradas salida_4x4_otro_orden.
Proof.
  assert (∀ j, j ∈ jaulas_4x4 ↔ j ∈ jaulas_4x4_otro_orden) as H.
  { intros j. unfold jaulas_4x4, jaulas_4x4_otro_orden. set_solver. }
  split; [exact H|]. split; [exact corrida_4x4|]. split; [exact corrida_4x4_otro_orden|].
  exact (X18_conjunto_de_jaulas con_poda 4 4 _ _ 4 _ _ H corrida_4x4 corrida_4x4_otro_orden).
Defined.
